(** * Chord transposition and song validation: a shallow embedding

    The development follows [src/utils/transpose.ts] and
    [src/utils/validation.ts].

    A JavaScript string is modelled as a [string], one [ascii] per code
    unit: the texts of the model are the texts whose code units lie below
    256, the Latin-1 range, which holds the alphabet of every table and
    pattern of the two modules.  White space, line terminators and the case
    mappings are those of the language on that range.

    A JavaScript number is a double.  The numbers the two modules count and
    index with are integers, kept as [Z]; where the source adds a number of
    any size to an index, the sum is rounded as [+] rounds it.  The
    similarity of two titles is a fraction, kept as the rational a double
    holds, each operation rounded to the nearest double.

    The only exception the two modules raise is the [Error] thrown by
    [getNoteIndex]; it is modelled by the [InvalidNote] outcome of [result].
    The text of its message is not tracked. *)

From Stdlib Require Import ZArith List Bool Ascii String Lia QArith Qround.
From Stdlib Require Import Numbers.DecimalString.
Import ListNotations.

Open Scope string_scope.
Open Scope Z_scope.

(** ** Outcomes of fallible code *)

Inductive result (A : Type) : Type :=
| Ok (a : A)
| InvalidNote.

Arguments Ok {A} a.
Arguments InvalidNote {A}.

Definition bind {A B : Type} (m : result A) (k : A -> result B) : result B :=
  match m with
  | Ok a => k a
  | InvalidNote => InvalidNote
  end.

Notation "x <- m ;; k" := (bind m (fun x => k))
  (at level 61, m at next level, right associativity).

Fixpoint mapM {A B : Type} (f : A -> result B) (l : list A) : result (list B) :=
  match l with
  | [] => Ok []
  | x :: xs => y <- f x ;; ys <- mapM f xs ;; Ok (y :: ys)
  end.

(** ** JavaScript string primitives *)

Module Js.

Definition code (c : ascii) : N := N_of_ascii c.

Definition inRange (lo hi : N) (c : ascii) : bool :=
  ((lo <=? code c) && (code c <=? hi))%N.

Definition isUpperChar : ascii -> bool := inRange 65 90.
Definition isLowerChar : ascii -> bool := inRange 97 122.
Definition isDigit : ascii -> bool := inRange 48 57.

(** The small letter of a code unit: A to Z and, above them, the capitals
    from U+00C0 to U+00DE but for the multiplication sign U+00D7. *)
Definition toLowerChar (c : ascii) : ascii :=
  if isUpperChar c || inRange 192 214 c || inRange 216 222 c
  then ascii_of_N (code c + 32) else c.

(** The capital of a code unit, where it is one code unit of the range: a to
    z and the small letters from U+00E0 to U+00FE but for the division sign
    U+00F7.  The three other letters with a capital are dealt with by
    [toUpperCase]. *)
Definition toUpperChar (c : ascii) : ascii :=
  if isLowerChar c || inRange 224 246 c || inRange 248 254 c
  then ascii_of_N (code c - 32) else c.

(** White space of [String.prototype.trim] and of the class [\s]:
    TAB, LF, VT, FF, CR, SPACE and the no-break space U+00A0. *)
Definition isSpace (c : ascii) : bool :=
  inRange 9 13 c || (code c =? 32)%N || (code c =? 160)%N.

(** Line terminators, the characters the pattern [.] does not match. *)
Definition isLineTerminator (c : ascii) : bool :=
  (code c =? 10)%N || (code c =? 13)%N.

Fixpoint toLowerCase (s : string) : string :=
  match s with
  | "" => ""
  | String c s' => String (toLowerChar c) (toLowerCase s')
  end.

(** [s.toUpperCase()].  The sharp s U+00DF becomes SS.  The capitals of the
    micro sign U+00B5 and of the y with diaeresis U+00FF are U+039C and
    U+0178: the result is then no text of the model, [None]. *)
Fixpoint toUpperCase (s : string) : option string :=
  match s with
  | "" => Some ""
  | String c s' =>
      if (code c =? 181)%N || (code c =? 255)%N then None
      else
        match toUpperCase s' with
        | Some t =>
            if (code c =? 223)%N then Some (String "S" (String "S" t))
            else Some (String (toUpperChar c) t)
        | None => None
        end
  end.

Fixpoint trimStart (s : string) : string :=
  match s with
  | "" => ""
  | String c s' => if isSpace c then trimStart s' else s
  end.

Fixpoint trimEnd (s : string) : string :=
  match s with
  | "" => ""
  | String c s' =>
      match trimEnd s' with
      | "" => if isSpace c then "" else String c ""
      | t => String c t
      end
  end.

Definition trim (s : string) : string := trimEnd (trimStart s).

(** [s.charAt(0)] and [s.slice(1)]. *)
Definition charAt0 (s : string) : string :=
  match s with
  | "" => ""
  | String c _ => String c ""
  end.

Definition slice1 (s : string) : string :=
  match s with
  | "" => ""
  | String _ s' => s'
  end.

(** [s.includes(sub)]. *)
Fixpoint includes (sub s : string) : bool :=
  prefix sub s ||
  match s with
  | "" => false
  | String _ s' => includes sub s'
  end.

(** [s.endsWith(suffix)]. *)
Fixpoint endsWith (suffix s : string) : bool :=
  (s =? suffix)%string ||
  match s with
  | "" => false
  | String _ s' => endsWith suffix s'
  end.

(** [s.replace(c, '')] for a one-character string pattern [c]: only the
    first occurrence is removed. *)
Fixpoint removeFirst (c : ascii) (s : string) : string :=
  match s with
  | "" => ""
  | String x s' => if Ascii.eqb x c then s' else String x (removeFirst c s')
  end.

(** [s.split('\n')]: always at least one piece. *)
Fixpoint splitLines (s : string) : list string :=
  match s with
  | "" => [""]
  | String c s' =>
      if (code c =? 10)%N then "" :: splitLines s'
      else match splitLines s' with
           | [] => [String c ""]
           | l :: ls => String c l :: ls
           end
  end.

(** [ls.join('\n')]. *)
Definition joinLines (ls : list string) : string :=
  String.concat (String (ascii_of_N 10) "") ls.

(** [xs.join(sep)] for an arbitrary separator. *)
Definition join (sep : string) (ls : list string) : string :=
  String.concat sep ls.

(** [arr.indexOf(x)] on an array of strings: [-1] when absent. *)
Fixpoint indexOfFrom (i : Z) (x : string) (l : list string) : Z :=
  match l with
  | [] => -1
  | y :: ys => if (y =? x)%string then i else indexOfFrom (i + 1) x ys
  end.

Definition indexOf (x : string) (l : list string) : Z := indexOfFrom 0 x l.

(** The double quote character. *)
Definition quote : string := String (ascii_of_N 34) "".

(** Decimal rendering of a length or a count inside a template literal. *)
Definition showNat (n : nat) : string :=
  NilEmpty.string_of_uint (Nat.to_uint n).

(** *** Numbers *)

(** The largest magnitude up to which every integer is a double. *)
Definition maxExact : Z := 2 ^ 53.

(** The double nearest to an integer, ties to the even significand: the
    integer itself up to [maxExact], and beyond it the nearest multiple of
    the spacing of the doubles of its size, which is 2 to the power of
    [Z.log2 (Z.abs z) - 52]. *)
Definition toDouble (z : Z) : Z :=
  let a := Z.abs z in
  if a <=? maxExact then z
  else
    let e := Z.log2 a - 52 in
    let q := a / 2 ^ e in
    let r := a mod 2 ^ e in
    let half := 2 ^ (e - 1) in
    let q' := if r <? half then q
              else if half <? r then q + 1
              else if Z.even q then q else q + 1 in
    Z.sgn z * (q' * 2 ^ e).

(** [x + y] on two numbers that hold integers.  One of the two is an index
    of a table wherever the source adds, so that the sum never leaves the
    finite doubles. *)
Definition add (x y : Z) : Z := toDouble (x + y).

(** The integer nearest to the fraction [n / d] of two integers, [0 <= n]
    and [0 < d], ties to the even one. *)
Definition nearestEven (n d : Z) : Z :=
  let q := n / d in
  let r := n mod d in
  if 2 * r <? d then q
  else if d <? 2 * r then q + 1
  else if Z.even q then q else q + 1.

(** The double nearest to a rational, ties to the even significand: the
    rational lies between 2 to the power of [e] and the next power, and the
    result is a multiple of 2 to the power of [e - 52].  The fractions the
    source divides are quotients of two lengths, far from the ends of the
    exponent range. *)
Definition double (x : Q) : Q :=
  let n := Z.abs (Qnum x) in
  let d := Z.pos (Qden x) in
  if n =? 0 then 0%Q
  else
    let e0 := Z.log2 n - Z.log2 d in
    let e := if n * 2 ^ Z.max 0 (- e0) <? d * 2 ^ Z.max 0 e0 then e0 - 1 else e0 in
    let k := 52 - e in
    let m := nearestEven (n * 2 ^ Z.max 0 k) (d * 2 ^ Z.max 0 (- k)) in
    Qmake (Z.sgn (Qnum x) * (m * 2 ^ Z.max 0 (- k))) (Z.to_pos (2 ^ Z.max 0 k)).

End Js.

(** ** Regular expressions

    The patterns of the source that are only ever used through [test] are kept
    as data and decided by derivatives.  [Sym p] matches one code unit
    satisfying [p]; the [i] flag is rendered by case-folding predicates. *)

Module Re.

Inductive regex : Type :=
| Void
| Eps
| Sym (p : ascii -> bool)
| Cat (r1 r2 : regex)
| Alt (r1 r2 : regex)
| Star (r : regex).

Fixpoint nullable (r : regex) : bool :=
  match r with
  | Void => false
  | Eps => true
  | Sym _ => false
  | Cat r1 r2 => nullable r1 && nullable r2
  | Alt r1 r2 => nullable r1 || nullable r2
  | Star _ => true
  end.

Definition cat (r1 r2 : regex) : regex :=
  match r1, r2 with
  | Void, _ => Void
  | _, Void => Void
  | Eps, _ => r2
  | _, Eps => r1
  | _, _ => Cat r1 r2
  end.

Definition alt (r1 r2 : regex) : regex :=
  match r1, r2 with
  | Void, _ => r2
  | _, Void => r1
  | _, _ => Alt r1 r2
  end.

Fixpoint deriv (c : ascii) (r : regex) : regex :=
  match r with
  | Void => Void
  | Eps => Void
  | Sym p => if p c then Eps else Void
  | Cat r1 r2 =>
      if nullable r1 then alt (cat (deriv c r1) r2) (deriv c r2)
      else cat (deriv c r1) r2
  | Alt r1 r2 => alt (deriv c r1) (deriv c r2)
  | Star r1 => cat (deriv c r1) (Star r1)
  end.

(** The whole of [s] matches [r]: the pattern [^r$]. *)
Fixpoint fullMatch (r : regex) (s : string) : bool :=
  match s with
  | "" => nullable r
  | String c s' => fullMatch (deriv c r) s'
  end.

Definition anyChar : regex := Sym (fun _ => true).
Definition opt (r : regex) : regex := Alt r Eps.
Definition plus (r : regex) : regex := Cat r (Star r).

Fixpoint alts (rs : list regex) : regex :=
  match rs with
  | [] => Void
  | [r] => r
  | r :: rs' => Alt r (alts rs')
  end.

Fixpoint seqs (rs : list regex) : regex :=
  match rs with
  | [] => Eps
  | [r] => r
  | r :: rs' => Cat r (seqs rs')
  end.

(** One literal character, case-sensitive and under the [i] flag. *)
Definition chr (c : ascii) : regex := Sym (Ascii.eqb c).
Definition chrI (c : ascii) : regex :=
  Sym (fun x => Ascii.eqb (Js.toLowerChar x) (Js.toLowerChar c)).

(** A literal string. *)
Fixpoint lit (s : string) : regex :=
  match s with
  | "" => Eps
  | String c "" => chr c
  | String c s' => Cat (chr c) (lit s')
  end.

Fixpoint litI (s : string) : regex :=
  match s with
  | "" => Eps
  | String c "" => chrI c
  | String c s' => Cat (chrI c) (litI s')
  end.

(** Character classes. *)
Definition oneOf (cs : string) : regex :=
  Sym (fun x => existsb (Ascii.eqb x) (list_ascii_of_string cs)).
Definition oneOfI (cs : string) : regex :=
  Sym (fun x => existsb (fun c => Ascii.eqb (Js.toLowerChar x) (Js.toLowerChar c))
                        (list_ascii_of_string cs)).
Definition noneOf (cs : string) : regex :=
  Sym (fun x => negb (existsb (Ascii.eqb x) (list_ascii_of_string cs))).
Definition space : regex := Sym Js.isSpace.
Definition digit : regex := Sym Js.isDigit.

(** [/r/.test(s)] for a pattern without anchors, with [^] only, with [$]
    only, and with both. *)
Definition test (r : regex) (s : string) : bool :=
  fullMatch (Cat (Star anyChar) (Cat r (Star anyChar))) s.
Definition testPrefix (r : regex) (s : string) : bool :=
  fullMatch (Cat r (Star anyChar)) s.
Definition testSuffix (r : regex) (s : string) : bool :=
  fullMatch (Cat (Star anyChar) r) s.
Definition testAnchored (r : regex) (s : string) : bool :=
  fullMatch r s.

End Re.

(** ** The transposition engine ([src/utils/transpose.ts]) *)

Module Transpose.

(** *** Constants *)

Definition NOTES : list string :=
  ["C"; "C#"; "D"; "D#"; "E"; "F"; "F#"; "G"; "G#"; "A"; "A#"; "B"].
Definition FLAT_NOTES : list string :=
  ["C"; "Db"; "D"; "Eb"; "E"; "F"; "Gb"; "G"; "Ab"; "A"; "Bb"; "B"].
Definition SHARP_NOTES : list string :=
  ["C"; "C#"; "D"; "D#"; "E"; "F"; "F#"; "G"; "G#"; "A"; "A#"; "B"].

Record KeySignature : Type := mkKey {
  name : string;
  index : Z;
  flats : Z;
  sharps : Z
}.

(** [arr[i]] on an array of strings inside a template literal: a missing
    element prints as [undefined]. *)
Definition at_ (l : list string) (i : Z) : string :=
  if i <? 0 then "undefined" else nth (Z.to_nat i) l "undefined".

Definition MAJOR_KEYS : list KeySignature :=
  [ mkKey "C" 0 0 0;  mkKey "G" 7 0 1;  mkKey "D" 2 0 2;  mkKey "A" 9 0 3;
    mkKey "E" 4 0 4;  mkKey "B" 11 0 5; mkKey "F#" 6 1 6; mkKey "Db" 1 5 0;
    mkKey "Ab" 8 4 0; mkKey "Eb" 3 3 0; mkKey "Bb" 10 2 0; mkKey "F" 5 1 0 ].

Definition MINOR_KEYS : list KeySignature :=
  map (fun major =>
         mkKey (at_ NOTES (Z.rem (index major + 9) 12) ++ "m")
               (Z.rem (index major + 9) 12)
               (flats major) (sharps major))
      MAJOR_KEYS.

Definition BEGINNER_KEYS : list string :=
  ["G"; "C"; "D"; "A"; "E"; "Am"; "Em"; "Dm"].

Inductive Confidence : Type := high | medium | low.

Record KeyDetectionResult : Type := mkDetection {
  detectedKey : string;
  confidence : Confidence;
  possibleKeys : list string
}.

(** *** Helper functions *)

(** A property read on the object literal [flatMap]: one of its own keys,
    a name inherited from [Object.prototype], or nothing.  The argument is
    always lower-cased, and [constructor] and [__proto__] are the two
    inherited names written in lower case only. *)
Inductive property : Type :=
| Own (v : string)
| Inherited
| Absent.

Definition flatMap (key : string) : property :=
  if (key =? "db")%string then Own "c#"
  else if (key =? "eb")%string then Own "d#"
  else if (key =? "gb")%string then Own "f#"
  else if (key =? "ab")%string then Own "g#"
  else if (key =? "bb")%string then Own "a#"
  else if (key =? "cb")%string then Own "b"
  else if (key =? "fb")%string then Own "e"
  else if (key =? "constructor")%string || (key =? "__proto__")%string
       then Inherited
  else Absent.

(** [normalizeToSharp]: [flatMap[lowerNote] || capitalised note].  Every own
    value is a non-empty string, hence truthy; an inherited property is an
    object, truthy as well and never a string.  [None] stands for a value
    that is no text of the model: such an object, or a note whose capitalised
    first letter leaves the range.  The trailing [replace('#', '#')] changes
    nothing. *)
Definition normalizeToSharp (note : string) : option string :=
  let lowerNote := Js.toLowerCase note in
  match flatMap lowerNote with
  | Own v => Some v
  | Inherited => None
  | Absent =>
      match Js.toUpperCase (Js.charAt0 note) with
      | Some capital => Some (capital ++ Js.slice1 note)
      | None => None
      end
  end.

(** [getNoteIndex]: the index of the normalised note in [NOTES], or the
    thrown error. *)
Definition getNoteIndex (note : string) : result Z :=
  let index :=
    match normalizeToSharp note with
    | Some normalized => Js.indexOf normalized NOTES
    | None => -1
    end in
  if index =? -1 then InvalidNote else Ok index.

(** [transposeNote], for a shift that is a whole number.  The sum of the
    index and the shift is rounded as [+] rounds it; [%] is the truncating
    remainder [Z.rem], exact on doubles, and so is the sum with 12 of a
    remainder between -12 and 12. *)
Definition transposeNote (note : string) (semitones : Z) (useFlats : bool)
  : result string :=
  currentIndex <- getNoteIndex note ;;
  let newIndex := Z.rem (Z.rem (Js.add currentIndex semitones) 12 + 12) 12 in
  let notes := if useFlats then FLAT_NOTES else SHARP_NOTES in
  Ok (at_ notes newIndex).

(** *** Chord parsing *)

Record ParsedChord : Type := mkParsed {
  root : string;
  quality : string;
  bass : option string
}.

Definition isNoteLetter (c : ascii) : bool := Js.inRange 65 71 c.
Definition isAccidental (c : ascii) : bool :=
  Ascii.eqb c "#" || Ascii.eqb c "b".

(** The whole of [s] is [/[A-G][#b]?], the third group of [chordRegex]. *)
Definition isSlashBass (s : string) : bool :=
  match s with
  | String c0 (String c1 "") => Ascii.eqb c0 "/" && isNoteLetter c1
  | String c0 (String c1 (String c2 "")) =>
      Ascii.eqb c0 "/" && isNoteLetter c1 && isAccidental c2
  | _ => false
  end.

(** The groups [(.*?)(\/[A-G][#b]?)?$] on the text after the root.  The
    lazy quantifier takes the shortest quality whose remainder is a
    slash-bass or empty: at each position the remainder is tried as a bass
    before one more character is given to the quality. *)
Fixpoint splitBass (s : string) : string * option string :=
  if isSlashBass s then ("", Some (Js.slice1 s))
  else match s with
       | "" => ("", None)
       | String c s' => let (q, b) := splitBass s' in (String c q, b)
       end.

Fixpoint hasLineTerminator (s : string) : bool :=
  match s with
  | "" => false
  | String c s' => Js.isLineTerminator c || hasLineTerminator s'
  end.

(** [s.match(/^([A-G][#b]?)(.*?)(\/[A-G][#b]?)?$/)]: the three groups, or
    [None] when there is no match.  The accidental is taken greedily; [.]
    refuses line terminators, which a bass cannot hold either, so there is
    a match exactly when the text after the note letter is free of them. *)
Definition matchChord (s : string) : option (string * string * option string) :=
  match s with
  | "" => None
  | String c0 rest =>
      if isNoteLetter c0 then
        if hasLineTerminator rest then None
        else
          match rest with
          | String c1 rest' =>
              if isAccidental c1 then
                let (q, b) := splitBass rest' in
                Some (String c0 (String c1 ""), q, b)
              else
                let (q, b) := splitBass rest in
                Some (String c0 "", q, b)
          | "" => Some (String c0 "", "", None)
          end
      else None
  end.

(** [parseChord]: on a failed match the root is the chord as given, not
    trimmed. *)
Definition parseChord (chord : string) : ParsedChord :=
  match matchChord (Js.trim chord) with
  | None => mkParsed chord "" None
  | Some (r, q, b) => mkParsed r q b
  end.

(** The class [[A-G]] and the class [[#b]] under the [i] flag. *)
Definition noteI : Re.regex := Re.oneOfI "ABCDEFG".
Definition accidentalI : Re.regex := Re.oneOfI "#b".
Definition note : Re.regex := Re.oneOf "ABCDEFG".
Definition accidental : Re.regex := Re.oneOf "#b".

(** [chordRegex] as data, without its groups: a note letter, an optional
    accidental, any text free of line terminators, an optional slash-bass. *)
Definition chordRegex : Re.regex :=
  Re.seqs [ note; Re.opt accidental;
            Re.Star (Re.Sym (fun c => negb (Js.isLineTerminator c)));
            Re.opt (Re.seqs [Re.chr "/"; note; Re.opt accidental]) ].

(** [isChord]: the two patterns
    [/^[A-G][#b]?(m|maj|dim|aug|sus|add| maj7| m7| 7| maj9| m9| 9| 11| 13)?$/i]
    and [/^[A-G][#b]?\/(A-G][#b]?)?$/i]; the blanks inside the first and
    the literal [A-G]] inside the second are the source's. *)
Definition chordPatterns : list Re.regex :=
  [ Re.seqs [ noteI; Re.opt accidentalI;
              Re.opt (Re.alts (map Re.litI
                ["m"; "maj"; "dim"; "aug"; "sus"; "add"; " maj7"; " m7";
                 " 7"; " maj9"; " m9"; " 9"; " 11"; " 13"])) ];
    Re.seqs [ noteI; Re.opt accidentalI; Re.chrI "/";
              Re.opt (Re.Cat (Re.litI "A-G]") (Re.opt accidentalI)) ] ].

Definition isChord (text : string) : bool :=
  existsb (fun pattern => Re.testAnchored pattern (Js.trim text)) chordPatterns.

(** *** Core transposition *)

(** [transposeChord].  A bass, when captured, is a non-empty string and so
    is every transposed note; the truthiness tests of the source are kept. *)
Definition transposeChord (chord : string) (semitones : Z) (useFlats : bool)
  : result string :=
  if (semitones =? 0) || (Js.trim chord =? "")%string then Ok chord
  else
    let parsed := parseChord chord in
    newRoot <- transposeNote (root parsed) semitones useFlats ;;
    newBass <- match bass parsed with
               | Some b =>
                   if (b =? "")%string then Ok None
                   else nb <- transposeNote b semitones useFlats ;; Ok (Some nb)
               | None => Ok None
               end ;;
    match newBass with
    | Some nb =>
        if (nb =? "")%string then Ok (newRoot ++ quality parsed)
        else Ok (newRoot ++ quality parsed ++ "/" ++ nb)
    | None => Ok (newRoot ++ quality parsed)
    end.

(** [transposeChords]: the list itself when the shift is zero. *)
Definition transposeChords (chords : list string) (semitones : Z)
  : result (list string) :=
  if semitones =? 0 then Ok chords
  else mapM (fun chord => transposeChord chord semitones false) chords.


(** *** Lyrics *)

Definition qualityAlternatives : Re.regex :=
  Re.alts (map Re.lit
    ["maj"; "m"; "dim"; "aug"; "sus"; "add"; "7"; " maj7"; " m7"; " 9";
     " 11"; " 13"]).

Definition chordToken : Re.regex :=
  Re.seqs [note; Re.opt accidental; Re.opt qualityAlternatives].

(** [aboveFormat], anchored at both ends: any number of bracketed texts,
    each followed by optional white space; then one bracket holding chord
    tokens separated by an optional comma and optional white space; then
    optional white space. *)
Definition aboveFormat : Re.regex :=
  Re.seqs
    [ Re.Star (Re.seqs [Re.chr "["; Re.plus (Re.noneOf "]"); Re.chr "]";
                        Re.Star Re.space]);
      Re.seqs [Re.chr "["; chordToken;
               Re.Star (Re.seqs [Re.opt (Re.chr ","); Re.Star Re.space;
                                 chordToken]);
               Re.chr "]"];
      Re.Star Re.space ].

(** The group of [inlineFormat], the text between the brackets: a note
    letter, an optional accidental, an optional quality among the
    alternatives above and an optional slash-bass. *)
Definition inlineChord : Re.regex :=
  Re.seqs [note; Re.opt accidental; Re.opt qualityAlternatives;
           Re.opt (Re.seqs [Re.chr "/"; note; Re.opt accidental])].

Definition inlineFormat : Re.regex :=
  Re.seqs [Re.chr "["; inlineChord; Re.chr "]"].

(** The group of the bracket pattern of the above-lyrics branch: a note
    letter, an optional accidental, then anything but a closing bracket. *)
Definition bracketChord : Re.regex :=
  Re.seqs [note; Re.opt accidental; Re.Star (Re.noneOf "]")].

(** The text up to the first closing bracket, if there is one. *)
Fixpoint untilClose (s : string) : option string :=
  match s with
  | "" => None
  | String c s' =>
      if Ascii.eqb c "]" then Some ""
      else option_map (String c) (untilClose s')
  end.

(** [line.replace(pattern, (_, chord) => ...)] for a global pattern made
    of an opening bracket, a group and a closing bracket, the callback
    putting [f chord] back between brackets.  The group cannot hold a
    closing bracket: a match starting at an
    opening bracket ends at the first closing bracket after it.  Matches
    are taken leftmost and do not overlap; [skip] counts the characters of
    the match still to be passed over. *)
Fixpoint replaceBracketed (group : Re.regex) (f : string -> result string)
         (skip : nat) (s : string) : result string :=
  match s with
  | "" => Ok ""
  | String c s' =>
      match skip with
      | S k => replaceBracketed group f k s'
      | O =>
          let keep := rest <- replaceBracketed group f O s' ;; Ok (String c rest) in
          if Ascii.eqb c "[" then
            match untilClose s' with
            | Some chord =>
                if Re.fullMatch group chord then
                  replaced <- f chord ;;
                  rest <- replaceBracketed group f (S (String.length chord)) s' ;;
                  Ok ("[" ++ replaced ++ "]" ++ rest)
                else keep
            | None => keep
            end
          else keep
      end
  end.

Definition transposeLine (semitones : Z) (line : string) : result string :=
  if Re.testAnchored aboveFormat line then
    replaceBracketed bracketChord
      (fun chord => transposeChord chord semitones false) O line
  else if Re.test inlineFormat line then
    replaceBracketed inlineChord
      (fun chord => transposeChord chord semitones false) O line
  else Ok line.

(** [transposeLyrics]. *)
Definition transposeLyrics (lyrics : string) (semitones : Z) : result string :=
  if semitones =? 0 then Ok lyrics
  else
    let lines := Js.splitLines lyrics in
    transposedLines <- mapM (transposeLine semitones) lines ;;
    Ok (Js.joinLines transposedLines).

(** *** Key detection *)

(** [chordCounts[root] = (chordCounts[root] || 0) + 1] on the insertion-
    ordered entries of the object. *)
Fixpoint increment (r : string) (counts : list (string * Z))
  : list (string * Z) :=
  match counts with
  | [] => [(r, 1)]
  | (k, n) :: rest =>
      if (k =? r)%string then (k, n + 1) :: rest
      else (k, n) :: increment r rest
  end.

(** The tally of the roots, as [Object.entries] lists it.  [chordCounts]
    is a plain object: for the root [__proto__] the read yields
    [Object.prototype], and the write reaches the inherited setter, which
    ignores a value that is not an object, so no entry is ever created.
    For a root that is an integer index or another inherited name the
    order and the count differ from the ones kept here, but such a root is
    no note and the run ends in the thrown error whatever its position. *)
Definition countRoots (chords : list string) : list (string * Z) :=
  fold_left
    (fun chordCounts chord =>
       let parsed := parseChord chord in
       if (root parsed =? "__proto__")%string then chordCounts
       else increment (root parsed) chordCounts)
    chords [].

(** [.sort((a, b) => b[1] - a[1])]: descending counts, ties in the order
    of the input (the sort is stable). *)
Fixpoint insertByCount (x : string * Z) (l : list (string * Z))
  : list (string * Z) :=
  match l with
  | [] => [x]
  | y :: ys => if snd x <? snd y then y :: insertByCount x ys else x :: l
  end.

Definition sortByCount (l : list (string * Z)) : list (string * Z) :=
  fold_right insertByCount [] l.

Definition keysAt (rootIndex : Z) : list string :=
  (map name (filter (fun k => index k =? rootIndex) MAJOR_KEYS)
   ++ map name (filter (fun k => index k =? rootIndex) MINOR_KEYS))%list.

Definition signalsMinor (c : string) : bool :=
  Js.includes "m" (Js.toLowerCase c) && negb (Js.includes "maj" (Js.toLowerCase c)).
Definition signalsMajor (c : string) : bool :=
  negb (Js.includes "m" (Js.toLowerCase c)) || Js.includes "maj" (Js.toLowerCase c).

Fixpoint dedupe (seen : list string) (keys : list string) : list string :=
  match keys with
  | [] => []
  | key :: rest =>
      if existsb (String.eqb key) seen then dedupe seen rest
      else key :: dedupe (key :: seen) rest
  end.

Definition confidenceOf (n : nat) : Confidence :=
  if (10 <? n)%nat then high else if (5 <? n)%nat then medium else low.

(** [detectKey]. *)
Definition detectKey (chords : list string) : result KeyDetectionResult :=
  match chords with
  | [] => Ok (mkDetection "C" low (map name MAJOR_KEYS))
  | _ =>
      let chordCounts := countRoots chords in
      let sortedRoots := map fst (sortByCount chordCounts) in
      let hasMinor := existsb signalsMinor chords in
      let hasMajor := existsb signalsMajor chords in
      keyLists <- mapM (fun r => rootIndex <- getNoteIndex r ;;
                                 Ok (keysAt rootIndex)) sortedRoots ;;
      let possibleKeys := List.concat keyLists in
      let first := hd_error possibleKeys in
      let guess := match first with
                   | Some k => if (k =? "")%string then "C" else k
                   | None => "C"
                   end in
      let detectedKey :=
        if hasMinor && negb hasMajor then
          (* the replacement of [/^(?!.*m)/] by the empty string is void *)
          if negb (Js.endsWith "m" guess) then
            match find (fun k => match first with
                                 | Some k0 => (Js.removeFirst "m" (name k) =? k0)%string
                                 | None => false
                                 end) MINOR_KEYS with
            | Some minorVersion => name minorVersion
            | None => guess
            end
          else guess
        else guess in
      Ok (mkDetection detectedKey
                      (confidenceOf (List.length chords))
                      (firstn 5 (dedupe [] possibleKeys)))
  end.

(** *** Key transposition *)

(** [getSemitoneDistance]; the two [replace('#', '#')] change nothing. *)
Definition getSemitoneDistance (fromKey toKey : string) : result Z :=
  fromIndex <- getNoteIndex (Js.removeFirst "m" fromKey) ;;
  toIndex <- getNoteIndex (Js.removeFirst "m" toKey) ;;
  let distance := toIndex - fromIndex in
  let distance := if distance >? 6 then distance - 12 else distance in
  let distance := if distance <? -6 then distance + 12 else distance in
  Ok distance.

Definition transposeKey (fromKey toKey : string) : result Z :=
  getSemitoneDistance fromKey toKey.

(** [getAllKeys]. *)
Definition getAllKeys : list string :=
  (map name MAJOR_KEYS ++ map name MINOR_KEYS)%list.

End Transpose.

(** ** The validation pipeline ([src/utils/validation.ts]) *)

Module Validation.

(** *** Types

    The declarations of [SongMetadata], [ParsedSong], [SongSection],
    [ValidationResult], [ValidationError] and [ValidationWarning] of the
    module [@/types].  The records hold the fields the validators read or
    write: the optional [chords] of a section and [originalKey] of a parsed
    song, which they never touch, are left out.  The song identifier is a
    number. *)

Inductive Severity : Type := critical | major | minor.

Definition severity_eqb (a b : Severity) : bool :=
  match a, b with
  | critical, critical | major, major | minor, minor => true
  | _, _ => false
  end.

Record ValidationError : Type := mkError {
  field : string;
  message : string;
  severity : Severity
}.

Record ValidationWarning : Type := mkWarning {
  wfield : string;
  wmessage : string
}.

Record ValidationResult : Type := mkResult {
  valid : bool;
  errors : list ValidationError;
  warnings : list ValidationWarning
}.

Record SongMetadata : Type := mkMetadata {
  id : Z;
  title : string;
  artist : string;
  album : option string;
  releaseDate : option string;
  headerImageUrl : option string;
  coverArtUrl : option string;
  url : string
}.

Inductive SectionType : Type :=
| intro | verse | pre_chorus | chorus | bridge | outro | other.

Record SongSection : Type := mkSection {
  type : SectionType;
  content : string;
  isChorus : option bool
}.

Record ParsedSong : Type := mkSong {
  metadata : SongMetadata;
  sections : list SongSection;
  detectedChords : list string
}.

Record Options : Type := mkOptions {
  expectedTitle : option string;
  retryCount : option Z
}.

(** *** Constants *)

Definition MIN_LYRICS_LENGTH : nat := 100.
Definition MIN_SECTIONS : nat := 2.
Definition TITLE_SIMILARITY_THRESHOLD : Q := Js.double (9 # 10).
Definition MAX_RETRIES : Z := 2.

(** [errors.filter(e => e.severity === 'critical').length === 0]. *)
Definition noCritical (es : list ValidationError) : bool :=
  Nat.eqb (List.length (filter (fun e => severity_eqb (severity e) critical) es)) 0.

(** *** Helper functions *)

(** One row of the Levenshtein matrix from the row above it: [diag] and
    [left] are [matrix[i-1][j-1]] and [matrix[i][j-1]]. *)
Fixpoint fillRow (c : ascii) (s2 : string) (diag left : nat) (above : list nat)
  : list nat :=
  match s2, above with
  | String d s2', up :: above' =>
      let cost := if Ascii.eqb c d then 0%nat else 1%nat in
      let cell := Nat.min (Nat.min (up + 1) (left + 1)) (diag + cost) in
      cell :: fillRow c s2' up cell above'
  | _, _ => []
  end.

Definition nextRow (c : ascii) (s2 : string) (above : list nat) : list nat :=
  match above with
  | [] => []
  | first :: above' => (first + 1)%nat :: fillRow c s2 first (first + 1)%nat above'
  end.

Fixpoint lastRow (s1 s2 : string) (row : list nat) : list nat :=
  match s1 with
  | "" => row
  | String c s1' => lastRow s1' s2 (nextRow c s2 row)
  end.

Definition levenshtein (s1 s2 : string) : nat :=
  last (lastRow s1 s2 (seq 0 (S (String.length s2)))) 0%nat.

(** [calculateStringSimilarity]: the quotient of the two lengths and its
    difference from 1 are each rounded to a double, and 0.8 is the double
    nearest to eight tenths. *)
Definition calculateStringSimilarity (str1 str2 : string) : Q :=
  if (str1 =? str2)%string then 1%Q
  else if Nat.eqb (String.length str1) 0 || Nat.eqb (String.length str2) 0 then 0%Q
  else
    let s1 := Js.toLowerCase str1 in
    let s2 := Js.toLowerCase str2 in
    if Js.includes s2 s1 || Js.includes s1 s2 then Js.double (8 # 10)
    else
      let distance := levenshtein s1 s2 in
      let maxLength := Nat.max (String.length s1) (String.length s2) in
      Js.double (1 - Js.double (Z.of_nat distance # Pos.of_nat maxLength)).

(** [Math.round(x)]: the nearest integer, halves upwards; no rounding of a
    double is involved. *)
Definition round (x : Q) : Z := Qfloor (x + (1 # 2))%Q.

Definition showZ (z : Z) : string :=
  NilEmpty.string_of_int (Z.to_int z).

Definition truthy (s : string) : bool := negb (s =? "")%string.

Definition blank (s : string) : bool :=
  negb (truthy s) || (Js.trim s =? "")%string.

(** [isValidChord]:
    [/^[A-G][#b]?(maj|m|dim|aug|sus|add|7| maj7| m7| 9| 11| 13)?(\/[A-G][#b]?)?$/i]. *)
Definition chordPattern : Re.regex :=
  Re.seqs
    [ Transpose.noteI; Re.opt Transpose.accidentalI;
      Re.opt (Re.alts (map Re.litI
        ["maj"; "m"; "dim"; "aug"; "sus"; "add"; "7"; " maj7"; " m7"; " 9";
         " 11"; " 13"]));
      Re.opt (Re.seqs [Re.chrI "/"; Transpose.noteI; Re.opt Transpose.accidentalI]) ].

Definition isValidChord (chord : string) : bool :=
  Re.testAnchored chordPattern chord.

(** The headers of [parseSections], each anchored at the start of the
    line under the [i] flag. *)
Definition header (word : string) (numbered : bool) : Re.regex :=
  Re.seqs
    [ Re.litI word;
      (if numbered then Re.Cat (Re.Star Re.space) (Re.Star Re.digit) else Re.Eps);
      Re.opt (Re.chr ":"); Re.Star Re.space ].

Definition sectionPatterns : list (SectionType * Re.regex) :=
  [ (intro, header "Intro" false);
    (verse, header "Verse" true);
    (pre_chorus, header "Pre-Chorus" false);
    (chorus, header "Chorus" false);
    (bridge, header "Bridge" false);
    (outro, header "Outro" false) ].

Definition isChorusType (t : SectionType) : bool :=
  match t with chorus => true | _ => false end.

(** The loop of [parseSections] over the lines: the sections pushed so far
    (in order) and the current section. *)
Definition sectionStep (st : list SongSection * SongSection) (line : string)
  : list SongSection * SongSection :=
  let (sections, currentSection) := st in
  match find (fun tp => Re.testPrefix (snd tp) line) sectionPatterns with
  | Some (t, _) =>
      let sections :=
        if truthy (Js.trim (content currentSection))
        then (sections ++ [currentSection])%list else sections in
      (sections, mkSection t "" (Some (isChorusType t)))
  | None =>
      if truthy (Js.trim line) then
        let sep := if truthy (content currentSection)
                   then String (ascii_of_N 10) "" else "" in
        (sections,
         mkSection (type currentSection)
                   (content currentSection ++ sep ++ line)
                   (isChorus currentSection))
      else (sections, currentSection)
  end.

Definition parseSections (lyrics : string) : list SongSection :=
  let lines := Js.splitLines lyrics in
  let (sections, currentSection) :=
    fold_left sectionStep lines ([], mkSection other "" None) in
  if truthy (Js.trim (content currentSection))
  then (sections ++ [currentSection])%list else sections.

(** [truncatedIndicators]. *)
Definition truncatedIndicators : list (string -> bool) :=
  [ Re.test (Re.seqs [Re.litI "See"; Re.plus Re.space; Re.litI "http";
                      Re.opt (Re.chrI "s"); Re.lit "://"]);
    Re.test (Re.seqs [Re.litI "Full"; Re.plus Re.space; Re.litI "lyrics";
                      Re.plus Re.space; Re.litI "at"]);
    Re.testSuffix (Re.litI " Lyrics");
    Re.test (Re.litI "Translations") ].

(** [options?.retryCount ?? 0] and [options?.expectedTitle]. *)
Definition retryCountOf (options : option Options) : Z :=
  match options with
  | Some o => match retryCount o with Some n => n | None => 0 end
  | None => 0
  end.

Definition expectedTitleOf (options : option Options) : option string :=
  match options with
  | Some o => expectedTitle o
  | None => None
  end.

Section WithUrl.

(** [new URL(url).protocol], or [None] when the constructor throws: the
    URL parser belongs to the platform. *)
Variable urlProtocol : string -> option string.

(** [isValidUrl]. *)
Definition isValidUrl (u : string) : bool :=
  match urlProtocol u with
  | Some protocol => (protocol =? "http:")%string || (protocol =? "https:")%string
  | None => false
  end.

(** *** Validation functions *)

(** [validateMetadata]. *)
Definition validateMetadata (metadata : SongMetadata)
           (expectedTitle : option string) : ValidationResult :=
  let errors : list ValidationError := [] in
  let warnings : list ValidationWarning := [] in
  let errors :=
    if id metadata =? 0
    then (errors ++ [mkError "id" "Song ID is missing" critical])%list
    else errors in
  let errors :=
    if blank (title metadata)
    then (errors ++ [mkError "title" "Song title is missing or empty" critical])%list
    else errors in
  let errors :=
    if blank (artist metadata)
    then (errors ++ [mkError "artist" "Artist name is missing or empty" critical])%list
    else errors in
  let warnings :=
    match expectedTitle with
    | Some expected =>
        if truthy expected && truthy (title metadata) then
          let similarity :=
            calculateStringSimilarity (Js.toLowerCase (title metadata))
                                      (Js.toLowerCase expected) in
          if Qlt_le_dec similarity TITLE_SIMILARITY_THRESHOLD then
            (warnings ++
             [mkWarning "title"
                ("Title mismatch: " ++ Js.quote ++ title metadata ++ Js.quote
                 ++ " vs " ++ Js.quote ++ expected ++ Js.quote ++ " ("
                 ++ showZ (round (Js.double (similarity * 100)))
                 ++ "% similar)")])%list
          else warnings
        else warnings
    | None => warnings
    end in
  let errors :=
    if truthy (url metadata) && negb (isValidUrl (url metadata))
    then (errors ++ [mkError "url" "Invalid song URL" major])%list
    else errors in
  mkResult (noCritical errors) errors warnings.

(** [validateLyrics]. *)
Definition validateLyrics (lyrics : string) : ValidationResult :=
  if blank lyrics then
    mkResult false [mkError "lyrics" "Lyrics are empty" critical] []
  else
    let errors :=
      if (String.length lyrics <? MIN_LYRICS_LENGTH)%nat then
        [mkError "lyrics"
           ("Lyrics too short (" ++ Js.showNat (String.length lyrics)
            ++ " chars, minimum " ++ Js.showNat MIN_LYRICS_LENGTH ++ ")")
           critical]
      else [] in
    let warnings :=
      map (fun _ => mkWarning "lyrics" "Possible truncated lyrics detected")
          (filter (fun indicator => indicator lyrics) truncatedIndicators) in
    let sections := parseSections lyrics in
    let warnings :=
      if (List.length sections <? MIN_SECTIONS)%nat then
        (warnings ++
         [mkWarning "lyrics"
            ("Only " ++ Js.showNat (List.length sections)
             ++ " section(s) detected, expected at least "
             ++ Js.showNat MIN_SECTIONS)])%list
      else warnings in
    mkResult (Nat.eqb (List.length errors) 0) errors warnings.

(** [validateParsedSong]. *)
Definition validateParsedSong (song : ParsedSong) : ValidationResult :=
  let metadataResult := validateMetadata (metadata song) None in
  let errors := errors metadataResult in
  let warnings := warnings metadataResult in
  let errors :=
    if Nat.eqb (List.length (sections song)) 0
    then (errors ++ [mkError "sections" "No song sections found" critical])%list
    else errors in
  let emptySections := filter (fun s => blank (content s)) (sections song) in
  let warnings :=
    if (0 <? List.length emptySections)%nat then
      (warnings ++
       [mkWarning "sections"
          (Js.showNat (List.length emptySections) ++ " empty section(s) found")])%list
    else warnings in
  let warnings :=
    if (0 <? List.length (detectedChords song))%nat then
      let invalidChords :=
        filter (fun c => negb (isValidChord c)) (detectedChords song) in
      if (0 <? List.length invalidChords)%nat then
        (warnings ++
         [mkWarning "chords"
            (Js.showNat (List.length invalidChords)
             ++ " invalid chord(s) detected: "
             ++ Js.join ", " invalidChords)])%list
      else warnings
    else warnings in
  mkResult (noCritical errors) errors warnings.

(** [validateSong]: the value the returned promise resolves to. *)
Definition validateSong (metadata : SongMetadata) (lyrics : string)
           (options : option Options) : ValidationResult :=
  let retryCount := retryCountOf options in
  let metadataResult := validateMetadata metadata (expectedTitleOf options) in
  if negb (valid metadataResult) && (MAX_RETRIES <=? retryCount)
  then metadataResult
  else
    let lyricsResult := validateLyrics lyrics in
    if negb (valid lyricsResult) && (MAX_RETRIES <=? retryCount)
    then lyricsResult
    else
      let combinedErrors := (errors metadataResult ++ errors lyricsResult)%list in
      let combinedWarnings := (warnings metadataResult ++ warnings lyricsResult)%list in
      mkResult (noCritical combinedErrors) combinedErrors combinedWarnings.

End WithUrl.

End Validation.

(** ** The rest of the transposition engine ([src/utils/transpose.ts]) *)

Module TransposeRest.

Import Transpose.

(** The names [Object.prototype] hands down to every object literal. *)
Definition inheritedNames : list string :=
  [ "constructor"; "hasOwnProperty"; "isPrototypeOf"; "propertyIsEnumerable";
    "toLocaleString"; "toString"; "valueOf"; "__proto__";
    "__defineGetter__"; "__defineSetter__"; "__lookupGetter__";
    "__lookupSetter__" ].

(** A property read on the object literal [sharpMap]. *)
Definition sharpMap (key : string) : property :=
  if (key =? "c#")%string then Own "db"
  else if (key =? "d#")%string then Own "eb"
  else if (key =? "f#")%string then Own "gb"
  else if (key =? "g#")%string then Own "ab"
  else if (key =? "a#")%string then Own "bb"
  else if existsb (String.eqb key) inheritedNames then Inherited
  else Absent.

(** [normalizeToFlat]: [sharpMap[normalized] || normalized].  [None] stands
    for a value that is no text of the model: an inherited property of
    [sharpMap], or the value [normalizeToSharp] returned, which is no name
    of [sharpMap], neither as the text it is nor as the rendering of the
    object it is. *)
Definition normalizeToFlat (note : string) : option string :=
  match normalizeToSharp note with
  | None => None
  | Some normalized =>
      match sharpMap normalized with
      | Own v => Some v
      | Inherited => None
      | Absent => Some normalized
      end
  end.

(** *** Easy mode *)

Record Suggestion : Type := mkSuggestion {
  key : string;
  distance : Z
}.

(** [.sort((a, b) => Math.abs(a.distance) - Math.abs(b.distance))]:
    ascending absolute distances, ties in the order of the input. *)
Fixpoint insertByDistance (x : Suggestion) (l : list Suggestion)
  : list Suggestion :=
  match l with
  | [] => [x]
  | y :: ys =>
      if Z.abs (distance x) <=? Z.abs (distance y) then x :: l
      else y :: insertByDistance x ys
  end.

Definition sortByDistance (l : list Suggestion) : list Suggestion :=
  fold_right insertByDistance [] l.

(** [suggestEasyModeKeys]. *)
Definition suggestEasyModeKeys (currentKey : string) : result (list Suggestion) :=
  entries <- mapM (fun key => distance <- transposeKey currentKey key ;;
                              Ok (mkSuggestion key distance))
                  BEGINNER_KEYS ;;
  Ok (sortByDistance entries).

Definition beginnerChords : list string :=
  [ "C"; "G"; "D"; "A"; "E";
    "Am"; "Em"; "Dm";
    "G7"; "D7"; "A7"; "E7";
    "Cadd9"; "Gadd9"; "Dsus4"; "Asus2" ].

(** [isBeginnerFriendly]. *)
Definition isBeginnerFriendly (chord : string) : bool :=
  let parsed := parseChord chord in
  existsb (fun c =>
             (Js.toLowerCase c =? Js.toLowerCase chord)%string
             || (Js.toLowerCase c =? Js.toLowerCase (root parsed))%string)
          beginnerChords.

(** *** Key name formatting *)

(** [getRelativeMinor]. *)
Definition getRelativeMinor (majorKey : string) : string :=
  match find (fun k => (name k =? majorKey)%string) MAJOR_KEYS with
  | None => majorKey ++ "m"
  | Some major =>
      let minorIndex := Z.rem (index major + 9) 12 in
      at_ NOTES minorIndex ++ "m"
  end.

(** [getRelativeMajor]. *)
Definition getRelativeMajor (minorKey : string) : string :=
  match find (fun k => (name k =? minorKey)%string) MINOR_KEYS with
  | None => Js.removeFirst "m" minorKey
  | Some minor =>
      let majorIndex := Z.rem (index minor + 3) 12 in
      at_ NOTES majorIndex
  end.

(** *** Chord family detection *)

Inductive ChordFamily : Type :=
| major | minor | seventh | maj7 | m7 | sus | dim | aug | add | slash.

(** [getChordFamily]; [seventh] is the family the source writes ['7']. *)
Definition getChordFamily (chord : string) : ChordFamily :=
  let lower := Js.toLowerCase chord in
  let parsed := parseChord chord in
  if match bass parsed with
     | Some b => negb (b =? "")%string
     | None => false
     end then slash
  else if Js.includes "add" lower then add
  else if Js.includes "dim" lower then dim
  else if Js.includes "aug" lower then aug
  else if Js.includes "sus" lower then sus
  else if (lower =? "m7")%string || Js.includes "min7" lower then m7
  else if (lower =? "maj7")%string || Js.includes "maj7" lower then maj7
  else if Js.includes "m" lower && Js.includes "7" lower then m7
  else if Js.includes "7" lower then seventh
  else if (lower =? "m")%string || Js.includes "min" lower then minor
  else major.

End TransposeRest.

(** ** The transpose hook ([useTranspose])

    The two state cells of the hook and the callbacks the transpose control
    binds to its buttons and its key list.  A callback maps the state of one
    render to the state of the next.  [setSemitones], which no component
    calls, hands its number to [transposeKey] where a key name is expected
    and is left out. *)

Module UseTranspose.

Import Transpose.

Record State : Type := mkState {
  semitones : Z;
  targetKey : option string
}.

(** [useState(0)] and [useState(undefined)]. *)
Definition initial : State := mkState 0 None.

(** [setSemitonesState(prev => Math.min(12, prev + 1))]. *)
Definition incrementSemitones (st : State) : State :=
  mkState (Z.min 12 (Js.add (semitones st) 1)) (targetKey st).

(** [setSemitonesState(prev => Math.max(-12, prev - 1))]. *)
Definition decrementSemitones (st : State) : State :=
  mkState (Z.max (-12) (Js.add (semitones st) (-1))) (targetKey st).

(** [setTargetKeyCallback]: with an original key the shift is computed
    first, and an error of [transposeKey] leaves both cells as they were. *)
Definition setTargetKey (originalKey : option string) (key : string)
           (st : State) : result State :=
  match originalKey with
  | Some k =>
      if negb (k =? "")%string then
        shift <- transposeKey k key ;;
        Ok (mkState shift (Some key))
      else Ok (mkState (semitones st) (Some key))
  | None => Ok (mkState (semitones st) (Some key))
  end.

(** [reset]. *)
Definition reset (st : State) : State := mkState 0 None.

(** [transpose] and [transposeLyricsCallback]. *)
Definition transpose (st : State) (chord : string) : result string :=
  transposeChord chord (semitones st) false.

Definition transposeLyricsCallback (st : State) (lyrics : string) : result string :=
  transposeLyrics lyrics (semitones st).

(** What the user does to the control. *)
Inductive Event : Type :=
| Increment
| Decrement
| ChooseKey (key : string)
| Reset.

(** One event; a callback that throws leaves the state of the last render. *)
Definition step (originalKey : option string) (st : State) (e : Event) : State :=
  match e with
  | Increment => incrementSemitones st
  | Decrement => decrementSemitones st
  | ChooseKey key =>
      match setTargetKey originalKey key st with
      | Ok st' => st'
      | InvalidNote => st
      end
  | Reset => reset st
  end.

Definition run (originalKey : option string) (events : list Event) : State :=
  fold_left (step originalKey) events initial.

End UseTranspose.

(** ** Predicates of the statements *)

Module Predicates.

Import Transpose Validation.

(** The text does not begin with a letter A to G in either case. *)
Definition beginsOutsideNotes (s : string) : bool :=
  match s with
  | "" => true
  | String c _ => negb (isNoteLetter (Js.toUpperChar c))
  end.

(** The text begins with a sharp sign or with the letter b. *)
Definition startsWithAccidental (s : string) : bool :=
  match s with
  | "" => false
  | String c _ => isAccidental c
  end.

(** No white space at the end. *)
Definition Trimmed (s : string) : Prop := Js.trimEnd s = s.

(** The way [transposeChord] puts a chord together. *)
Definition slash (b : option string) : string :=
  match b with
  | Some b' => "/" ++ b'
  | None => ""
  end.

Definition assemble (r q : string) (b : option string) : string :=
  r ++ q ++ slash b.

(** The chord [transposeChord] returns for the pitch classes [i] of the
    root and [j] of the bass, spelled with sharps. *)
Definition spell (i : Z) : string := at_ SHARP_NOTES i.

Definition chordOf (i : Z) (q : string) (j : option Z) : string :=
  assemble (spell i) q (option_map spell j).

(** What [parseChord] guarantees of a quality, and what parsing it again
    needs: no line terminator and, where no bass follows, no slash-bass at
    its end and no white space there. *)
Definition Quality (q : string) (withBass : bool) : Prop :=
  hasLineTerminator q = false /\
  (withBass = false -> splitBass q = (q, None) /\ Trimmed q).

Definition isSome {A : Type} (o : option A) : bool :=
  match o with Some _ => true | None => false end.

(** The index arithmetic of [transposeNote] on integers of any size. *)
Definition shift (i n : Z) : Z := Z.rem (Z.rem (i + n) 12 + 12) 12.

(** A shift whose sum with every index of the note table is an integer that
    a double holds exactly: at most 2 to the power of 53, less 12, in
    magnitude. *)
Definition exactShift (n : Z) : Prop := Z.abs n <= Js.maxExact - 12.

(** The pitch class of a note that may be absent. *)
Definition pitchClass (b : option string) : option (result Z) :=
  option_map getNoteIndex b.

(** No error of the list is critical. *)
Definition NoCriticalError (es : list ValidationError) : Prop :=
  forall e, In e es -> severity e <> critical.

(** The invariant of a result: it is valid exactly when none of its errors
    is critical. *)
Definition Coherent (r : ValidationResult) : Prop :=
  valid r = true <-> NoCriticalError (errors r).

(** A platform parser that accepts the two schemes literally, and the
    metadata of scenario 5. *)
Definition schemeOf (u : string) : option string :=
  if prefix "http://" u then Some "http:"
  else if prefix "https://" u then Some "https:"
  else None.

Definition sampleMetadata : SongMetadata :=
  mkMetadata 0 "" "X" None None None None "not a url".

End Predicates.

(** ** Further predicates of the statements *)

Module MorePredicates.

Import Transpose TransposeRest Validation.

(** A note token: a letter A to G, then at most one accidental. *)
Definition noteToken (s : string) : bool :=
  match s with
  | String a "" => isNoteLetter a
  | String a (String x "") => isNoteLetter a && isAccidental x
  | _ => false
  end.

(** The text holds no opening bracket. *)
Fixpoint bracketFree (s : string) : bool :=
  match s with
  | "" => true
  | String c s' => negb (Ascii.eqb c "[") && bracketFree s'
  end.

(** The 256 code units. *)
Definition allChars : list ascii := map ascii_of_nat (seq 0 256).

(** Every text the pattern matches holds an opening bracket: a sufficient
    test on the shape of the pattern. *)
Fixpoint needsBracket (r : Re.regex) : bool :=
  match r with
  | Re.Void => true
  | Re.Eps => false
  | Re.Sym p => forallb (fun c => implb (p c) (Ascii.eqb c "[")) allChars
  | Re.Cat r1 r2 => needsBracket r1 || needsBracket r2
  | Re.Alt r1 r2 => needsBracket r1 && needsBracket r2
  | Re.Star _ => false
  end.

(** The cells of a row of the edit-distance matrix, from column [j0] on,
    are at most the larger of the row number [i] and their column. *)
Definition BoundedFrom (i j0 : nat) (row : list nat) : Prop :=
  forall k x, nth_error row k = Some x -> (x <= Nat.max i (j0 + k))%nat.

(** What [parseSections] guarantees of a section. *)
Definition WellFormedSection (sec : SongSection) : Prop :=
  isChorus sec = match type sec with
                 | other => None
                 | chorus => Some true
                 | _ => Some false
                 end.

(** How many chords of the list have the root [r]. *)
Definition rootOccurrences (chords : list string) (r : string) : nat :=
  count_occ string_dec (map (fun c => root (parseChord c)) chords) r.

(** The count an entry list holds for a key: the first entry decides. *)
Definition countIn (l : list (string * Z)) (k : string) : Z :=
  match find (fun p => (fst p =? k)%string) l with
  | Some p => snd p
  | None => 0
  end.

(** Descending counts. *)
Definition fewer (a b : string * Z) : Prop := snd b <= snd a.

(** Ascending absolute distances. *)
Definition closer (a b : Suggestion) : Prop :=
  Z.abs (distance a) <= Z.abs (distance b).

(** The seven letters with and without an accidental. *)
Definition allRoots : list string :=
  flat_map (fun l => [l; l ++ "#"; l ++ "b"]) ["A"; "B"; "C"; "D"; "E"; "F"; "G"].

End MorePredicates.

(** * Properties of the transposition engine *)

Module TransposeFacts.

Import Transpose Predicates.

(** Case analysis on a character, and on an index of the note tables. *)
Ltac each_char c := destruct c as [[] [] [] [] [] [] [] []].

Ltac each_index k H :=
  assert (k = 0 \/ k = 1 \/ k = 2 \/ k = 3 \/ k = 4 \/ k = 5 \/ k = 6 \/
          k = 7 \/ k = 8 \/ k = 9 \/ k = 10 \/ k = 11) as Hcases by lia;
  clear H; repeat (destruct Hcases as [->|Hcases]); [..|subst k].

(** ** The embedding on the scenarios of the specification *)

Lemma parseChord_examples :
  parseChord " Am7 " = mkParsed "A" "m7" None /\
  parseChord "Cmaj7/F#" = mkParsed "C" "maj7" (Some "F#") /\
  parseChord "C/E/G" = mkParsed "C" "/E" (Some "G") /\
  parseChord "C /E" = mkParsed "C" " " (Some "E") /\
  parseChord "Bbsus" = mkParsed "Bb" "sus" None /\
  parseChord "c" = mkParsed "c" "" None /\
  parseChord " H7 " = mkParsed " H7 " "" None.
Proof. repeat split. Qed.

(** [matchChord] succeeds where the pattern of [parseChord] matches. *)
Lemma matchChord_agrees_with_chordRegex :
  forallb (fun s => Bool.eqb (isSome (matchChord s)) (Re.testAnchored chordRegex s))
          [ ""; "C"; "C#"; "Cb"; "H"; "c"; "Am7"; "C/E"; "C/E/G"; "C /E"; "C#b5";
            "C##5"; "F#m7/C#"; "G/"; "G/H"; "A" ++ String (ascii_of_N 10) "m";
            "A" ++ String (ascii_of_N 13) "/E"; "Dsus4/A#"; "/E"; "E7 " ]
  = true.
Proof. vm_compute. reflexivity. Qed.

Lemma transpose_scenarios :
  transposeChord "Am" 2 false = Ok "Bm" /\
  transposeChord "C/E" (-3) false = Ok "A/C#" /\
  transposeChord "C/E" (-3) true = Ok "A/Db" /\
  transposeLyrics ("[Am] [G] [F]" ++ String (ascii_of_N 10) "") 2
    = Ok ("[Bm] [A] [G]" ++ String (ascii_of_N 10) "") /\
  transposeLyrics "Love [Am]me [G]tender" 2 = Ok "Love [Bm]me [A]tender" /\
  detectKey [] = Ok (mkDetection "C" low (map name MAJOR_KEYS)) /\
  map name MINOR_KEYS
    = ["Am"; "Em"; "Bm"; "F#m"; "C#m"; "G#m"; "D#m"; "A#m"; "Fm"; "Cm"; "Gm"; "Dm"].
Proof. vm_compute. repeat split. Qed.

(** Text beyond ASCII and shifts beyond the exact integers.  The no-break
    space is trimmed like a blank, and the sharp s is capitalised to SS.  A
    shift of 2 to the power of 53 takes C to G sharp; added to the index 1 of
    C sharp it gives an odd number, which [+] rounds to the even neighbour
    below, so that C sharp goes to G sharp too, and not to A. *)
Lemma wide_scenarios :
  Js.trim (String (ascii_of_N 160) "C" ++ String (ascii_of_N 160) "") = "C" /\
  parseChord ("C" ++ String (ascii_of_N 160) "") = mkParsed "C" "" None /\
  detectKey [String (ascii_of_N 160) "C"] = Ok (mkDetection "C" low ["C"; "Cm"]) /\
  normalizeToSharp (String (ascii_of_N 223) "") = Some "SS" /\
  normalizeToSharp (String (ascii_of_N 255) "") = None /\
  transposeChord "C" (2 ^ 53) false = Ok "G#" /\
  transposeChord "C#" (2 ^ 53) false = Ok "G#" /\
  shift 1 (2 ^ 53) = 9 /\
  transposeChord "F" (2 ^ 53) true = Ok "C".
Proof. vm_compute. repeat split. Qed.

(** ** The error monad *)

Lemma mapM_ok {A B : Type} (f : A -> result B) (l : list A) :
  (forall x, In x l -> exists y, f x = Ok y) ->
  exists ys, mapM f l = Ok ys.
Proof.
  induction l as [|x xs IH]; intros Hall; simpl.
  - now exists [].
  - destruct (Hall x (or_introl eq_refl)) as [y Hy].
    destruct IH as [ys Hys]; [intros z Hz; apply Hall; now right|].
    rewrite Hy, Hys. simpl. now exists (y :: ys).
Qed.

Lemma mapM_throws {A B : Type} (f : A -> result B) (l : list A) (x : A) :
  In x l -> f x = InvalidNote -> mapM f l = InvalidNote.
Proof.
  induction l as [|z zs IH]; simpl; intros Hin Hx; [contradiction|].
  destruct Hin as [->|Hin].
  - now rewrite Hx.
  - destruct (f z); simpl; [|reflexivity].
    now rewrite (IH Hin Hx).
Qed.

(** ** Looking a note up *)

Lemma indexOfFrom_spec (x : string) (l : list string) :
  forall i, 0 <= i ->
    (In x l -> i <= Js.indexOfFrom i x l) /\
    (~ In x l -> Js.indexOfFrom i x l = -1).
Proof.
  induction l as [|y ys IH]; intros i Hi; simpl.
  - split; [contradiction|reflexivity].
  - destruct (String.eqb_spec y x) as [->|Hne].
    + split; [lia|]. intros H. exfalso. apply H. now left.
    + destruct (IH (i + 1) ltac:(lia)) as [IH1 IH2]. split.
      * intros [Heq|Hin]; [congruence|]. specialize (IH1 Hin). lia.
      * intros H. apply IH2. intros Hin. apply H. now right.
Qed.

Lemma indexOf_absent (x : string) (l : list string) :
  Js.indexOf x l = -1 <-> ~ In x l.
Proof.
  unfold Js.indexOf.
  destruct (indexOfFrom_spec x l 0 ltac:(lia)) as [H1 H2]. split.
  - intros Heq Hin. specialize (H1 Hin). lia.
  - exact H2.
Qed.

(** [getNoteIndex] throws exactly when the normalised note is not one of
    the twelve entries of [NOTES]. *)
Lemma getNoteIndex_throws_iff (n : string) :
  getNoteIndex n = InvalidNote <->
  ~ (exists s, normalizeToSharp n = Some s /\ In s NOTES).
Proof.
  unfold getNoteIndex. destruct (normalizeToSharp n) as [s|].
  - destruct (Z.eqb_spec (Js.indexOf s NOTES) (-1)) as [Heq|Hne].
    + split; [|reflexivity]. intros _ [s' [Hs' Hin]].
      injection Hs' as <-. now apply indexOf_absent in Heq.
    + split; [discriminate|]. intros H. exfalso. apply Hne.
      apply indexOf_absent. intros Hin. apply H. now exists s.
  - simpl. split; [|reflexivity]. intros _ [s [Hs _]]. discriminate.
Qed.

Lemma indexOfFrom_bound (x : string) (l : list string) :
  forall i, Js.indexOfFrom i x l = -1 \/
            i <= Js.indexOfFrom i x l < i + Z.of_nat (List.length l).
Proof.
  induction l as [|y ys IH]; intros i; simpl List.length; simpl Js.indexOfFrom.
  - now left.
  - destruct (y =? x)%string; [right; lia|].
    destruct (IH (i + 1)) as [H|H]; [now left|right; lia].
Qed.

Lemma getNoteIndex_range (n : string) (i : Z) :
  getNoteIndex n = Ok i -> 0 <= i < 12.
Proof.
  unfold getNoteIndex. destruct (normalizeToSharp n) as [s|]; [|discriminate].
  destruct (Z.eqb_spec (Js.indexOf s NOTES) (-1)) as [|Hne]; [discriminate|].
  intros H. injection H as <-.
  unfold Js.indexOf in *.
  assert (Z.of_nat (List.length NOTES) = 12) as Hlen by reflexivity.
  destruct (indexOfFrom_bound s NOTES 0) as [H|H]; [contradiction|lia].
Qed.

(** ** The tally of the roots *)

Lemma in_increment (r k : string) (l : list (string * Z)) :
  In k (map fst (increment r l)) <-> k = r \/ In k (map fst l).
Proof.
  induction l as [|[k0 n0] l IH]; simpl.
  - intuition.
  - destruct (String.eqb_spec k0 r) as [->|Hne]; simpl.
    + intuition.
    + rewrite IH. intuition.
Qed.

Lemma in_countRoots_from (chords : list string) :
  forall (acc : list (string * Z)) (k : string),
    In k (map fst
            (fold_left
               (fun chordCounts chord =>
                  let parsed := parseChord chord in
                  if (root parsed =? "__proto__")%string then chordCounts
                  else increment (root parsed) chordCounts)
               chords acc)) <->
    In k (map fst acc) \/
    (exists c, In c chords /\ root (parseChord c) = k /\ k <> "__proto__").
Proof.
  induction chords as [|c cs IH]; intros acc k; simpl.
  - split; [now left|]. intros [H|[c [[] _]]]. exact H.
  - rewrite IH. destruct (String.eqb_spec (root (parseChord c)) "__proto__") as [Heq|Hne].
    + split.
      * intros [H|[c' [Hin Hc']]]; [now left|]. right. exists c'. split; [now right|exact Hc'].
      * intros [H|[c' [[->|Hin] [Hr Hk]]]]; [now left| |].
        -- congruence.
        -- right. exists c'. auto.
    + rewrite in_increment. split.
      * intros [[->|H]|[c' [Hin Hc']]].
        -- right. exists c. auto.
        -- now left.
        -- right. exists c'. split; [now right|exact Hc'].
      * intros [H|[c' [[->|Hin] [Hr Hk]]]].
        -- left. now right.
        -- left. left. now symmetry.
        -- right. exists c'. auto.
Qed.

Lemma in_countRoots (chords : list string) (k : string) :
  In k (map fst (countRoots chords)) <->
  exists c, In c chords /\ root (parseChord c) = k /\ k <> "__proto__".
Proof.
  unfold countRoots. rewrite in_countRoots_from. simpl. intuition.
Qed.

Lemma in_insertByCount (x y : string * Z) (l : list (string * Z)) :
  In y (insertByCount x l) <-> y = x \/ In y l.
Proof.
  induction l as [|z zs IH]; simpl.
  - intuition.
  - destruct (snd x <? snd z); simpl; [rewrite IH|]; intuition.
Qed.

Lemma in_sortByCount (y : string * Z) (l : list (string * Z)) :
  In y (sortByCount l) <-> In y l.
Proof.
  induction l as [|z zs IH]; simpl; [reflexivity|].
  rewrite in_insertByCount, IH. intuition.
Qed.

Lemma in_sortedRoots (chords : list string) (k : string) :
  In k (map fst (sortByCount (countRoots chords))) <->
  exists c, In c chords /\ root (parseChord c) = k /\ k <> "__proto__".
Proof.
  rewrite <- in_countRoots, !in_map_iff. split.
  - intros [y [Hy Hin]]. exists y. split; [exact Hy|]. now apply in_sortByCount.
  - intros [y [Hy Hin]]. exists y. split; [exact Hy|]. now apply in_sortByCount.
Qed.


(** ** Flat spellings *)

(** C1.  The lookup normalises a flat spelling to the lower-case sharp
    spelling ([c#] for [Db]), which is not an entry of [NOTES]: for each of
    Db, Eb, Gb, Ab and Bb [getNoteIndex] ends in the thrown error instead of
    the pitch class of the sharp equivalent, and so does [transposeChord]
    on a chord with such a root and a shift other than zero. *)
Theorem getNoteIndex_rejects_flat_spellings :
  map normalizeToSharp ["Db"; "Eb"; "Gb"; "Ab"; "Bb"]
    = [Some "c#"; Some "d#"; Some "f#"; Some "g#"; Some "a#"] /\
  map getNoteIndex ["Db"; "Eb"; "Gb"; "Ab"; "Bb"]
    = [InvalidNote; InvalidNote; InvalidNote; InvalidNote; InvalidNote] /\
  map getNoteIndex ["C#"; "D#"; "F#"; "G#"; "A#"]
    = [Ok 1; Ok 3; Ok 6; Ok 8; Ok 10] /\
  transposeChord "Db" 1 false = InvalidNote /\
  transposeChord "Bbm7" 2 false = InvalidNote /\
  transposeChord "C/Eb" (-3) true = InvalidNote.
Proof. repeat split. Qed.

(** ** Recognising a chord *)

(** C2.  [isChord] refuses the chords of the claim that carry a seventh, a
    ninth, an eleventh, a thirteenth or a slash-bass: the alternatives for
    them start with a blank in the first pattern, and the second pattern
    holds the literal text [A-G]] where a note class was meant.  The
    pattern of [isValidChord] accepts [C7] and [C/E]. *)
Theorem isChord_refuses_sevenths_and_slash_bass :
  map isChord ["C7"; "Cmaj7"; "Am7"; "C/E"; "C9"; "C11"; "C13"; " F#m7/C# "]
    = [false; false; false; false; false; false; false; false] /\
  map isChord ["C"; "Am"; "Cmaj"; "Bdim"; "Caug"; "Dsus"; "Eadd"; " Am "]
    = [true; true; true; true; true; true; true; true] /\
  map isChord ["C 7"; "C/"; "C/A-G]"]
    = [true; true; true] /\
  map Validation.isValidChord ["C7"; "C/E"] = [true; true].
Proof. vm_compute. repeat split. Qed.

(** ** Distance between keys *)

(** Where both lookups succeed the distance is antisymmetric and lies
    between -6 and 6. *)
Lemma getSemitoneDistance_antisym (a b : string) (d : Z) :
  getSemitoneDistance a b = Ok d ->
  getSemitoneDistance b a = Ok (- d) /\ -6 <= d <= 6.
Proof.
  unfold getSemitoneDistance.
  pose proof (getNoteIndex_range (Js.removeFirst "m" a)) as Ha.
  pose proof (getNoteIndex_range (Js.removeFirst "m" b)) as Hb.
  destruct (getNoteIndex (Js.removeFirst "m" a)) as [i|]; simpl; [|discriminate].
  destruct (getNoteIndex (Js.removeFirst "m" b)) as [j|]; simpl; [|discriminate].
  specialize (Ha i eq_refl). specialize (Hb j eq_refl).
  intros H. injection H as <-.
  destruct (Z.gtb_spec (j - i) 6); destruct (Z.gtb_spec (i - j) 6);
    repeat match goal with
           | |- context [?x <? ?y] => destruct (Z.ltb_spec x y)
           end; split; try (f_equal; lia); lia.
Qed.

(** C5.  [getSemitoneDistance] ends in the thrown error for the major key
    names spelled with a flat (Db, Ab, Eb, Bb), in either position, so it is
    neither antisymmetric nor bounded there; on the other names of the two
    key tables it returns. *)
Theorem getSemitoneDistance_rejects_flat_keys :
  map (fun k => getSemitoneDistance k "C") ["Db"; "Ab"; "Eb"; "Bb"]
    = [InvalidNote; InvalidNote; InvalidNote; InvalidNote] /\
  map (fun k => getSemitoneDistance "C" k) ["Db"; "Ab"; "Eb"; "Bb"]
    = [InvalidNote; InvalidNote; InvalidNote; InvalidNote] /\
  In "Db" (map name MAJOR_KEYS) /\
  getSemitoneDistance "C" "F#" = Ok 6 /\
  getSemitoneDistance "F#" "C" = Ok (-6) /\
  getSemitoneDistance "Am" "G" = Ok (-2).
Proof. vm_compute. repeat split. auto 10. Qed.

(** ** Key detection *)

(** C6.  For the one-chord list [C#m], which signals minor and not major,
    [detectKey] returns the major key name [Db]: the major table spells
    pitch class 1 with a flat, no name of the minor table is [Db] followed
    by [m], and the search for the minor version finds nothing. *)
Theorem detectKey_all_minor_returns_major_name :
  existsb signalsMinor ["C#m"] = true /\
  existsb signalsMajor ["C#m"] = false /\
  detectKey ["C#m"] = Ok (mkDetection "Db" low ["Db"; "C#m"]) /\
  Js.endsWith "m" "Db" = false /\
  ~ In "Db" (map name MINOR_KEYS) /\
  detectKey ["G#m"; "C#m"; "G#m"] = Ok (mkDetection "Ab" low ["Ab"; "G#m"; "Db"; "C#m"]) /\
  detectKey ["Am"; "Dm"; "Am"] = Ok (mkDetection "Am" low ["A"; "Am"; "D"; "Dm"]).
Proof.
  vm_compute. repeat split. intros H.
  repeat (destruct H as [H|H]; [discriminate|]). exact H.
Qed.


Lemma confidence_of_detectKey (chords : list string) (r : KeyDetectionResult) :
  detectKey chords = Ok r -> confidence r = confidenceOf (List.length chords).
Proof.
  unfold detectKey. destruct chords as [|c cs].
  - intros H. injection H as <-. reflexivity.
  - destruct (mapM _ _); simpl; [|discriminate].
    intros H. injection H as <-. reflexivity.
Qed.

(** [detectKey] returns on every list whose parsed roots are all known to
    [getNoteIndex]. *)
Lemma detectKey_returns (chords : list string) :
  (forall c, In c chords -> exists i, getNoteIndex (root (parseChord c)) = Ok i) ->
  exists r, detectKey chords = Ok r.
Proof.
  intros Hall. unfold detectKey. destruct chords as [|c cs]; [eauto|].
  set (l := c :: cs) in *.
  destruct (mapM_ok (fun r => rootIndex <- getNoteIndex r ;; Ok (keysAt rootIndex))
                    (map fst (sortByCount (countRoots l)))) as [ys Hys].
  - intros k Hk. apply in_sortedRoots in Hk. destruct Hk as [c' [Hin [<- _]]].
    destruct (Hall c' Hin) as [i Hi]. rewrite Hi. simpl. eauto.
  - rewrite Hys. simpl. eauto.
Qed.

(** C9, as stated, fails on a list that holds a token which is no chord:
    the one-token list [H7] is not empty and has at most 5 entries, its
    root is the token itself, which [getNoteIndex] refuses by its own
    [throw], and [detectKey] ends in that error: there is no result, and so
    no confidence that could be low. *)
Lemma detectKey_has_no_confidence_on_unknown_root :
  ["H7"] <> [] /\
  (List.length ["H7"] <= 5)%nat /\
  root (parseChord "H7") = "H7" /\
  normalizeToSharp "H7" = Some "H7" /\
  ~ In "H7" NOTES /\
  detectKey ["H7"] = InvalidNote /\
  ~ (exists r, detectKey ["H7"] = Ok r /\ confidence r = low).
Proof.
  split; [discriminate|]. split; [cbn; lia|]. split; [reflexivity|].
  split; [reflexivity|]. split; [|split; [reflexivity|]].
  - intros H. repeat (destruct H as [H|H]; [discriminate|]). exact H.
  - intros [r [H _]]. discriminate H.
Qed.

(** C9, amended.  Whenever [detectKey] returns on a non-empty list, the
    confidence is low for at most 5 chords, medium for 6 to 10 and high for
    more than 10; it returns on every list whose parsed roots are notes
    that [getNoteIndex] accepts; and on the eight chords C Am F G C Am F G
    it returns key C, confidence medium and candidates that contain C and
    Am. *)
Theorem detectKey_confidence_bands :
  (forall (chords : list string) (r : KeyDetectionResult),
      chords <> [] -> detectKey chords = Ok r ->
      ((List.length chords <= 5)%nat -> confidence r = low) /\
      ((6 <= List.length chords <= 10)%nat -> confidence r = medium) /\
      ((10 < List.length chords)%nat -> confidence r = high)) /\
  (forall chords : list string,
      (forall c, In c chords ->
                 exists i, getNoteIndex (root (parseChord c)) = Ok i) ->
      exists r, detectKey chords = Ok r) /\
  (exists keys,
      detectKey ["C"; "Am"; "F"; "G"; "C"; "Am"; "F"; "G"]
        = Ok (mkDetection "C" medium keys) /\
      In "C" keys /\ In "Am" keys).
Proof.
  split; [|split].
  - intros chords r _ H. rewrite (confidence_of_detectKey chords r H).
    unfold confidenceOf.
    destruct (Nat.ltb_spec 10 (List.length chords));
      destruct (Nat.ltb_spec 5 (List.length chords));
      repeat split; intros; first [reflexivity | lia].
  - exact detectKey_returns.
  - exists ["C"; "Cm"; "A"; "Am"; "F"]. repeat split; simpl; auto.
Qed.

Lemma detectKey_confidence_bands_witness :
  confidence (mkDetection "C" medium ["C"; "Cm"; "A"; "Am"; "F"]) = medium.
Proof.
  refine (proj1 (proj2 (proj1 detectKey_confidence_bands
                   ["C"; "Am"; "F"; "G"; "C"; "Am"; "F"; "G"] _ _ _)) _).
  - discriminate.
  - reflexivity.
  - simpl. lia.
Defined.

Lemma detectKey_throws (chords : list string) (c : string) :
  In c chords ->
  root (parseChord c) <> "__proto__" ->
  getNoteIndex (root (parseChord c)) = InvalidNote ->
  detectKey chords = InvalidNote.
Proof.
  intros Hin Hproto Hthrow. unfold detectKey.
  destruct chords as [|c0 cs]; [contradiction|].
  set (l := c0 :: cs) in *.
  rewrite (mapM_throws _ _ (root (parseChord c))); [reflexivity| |].
  - apply in_sortedRoots. exists c. auto.
  - now rewrite Hthrow.
Qed.

Lemma upper_of_note_letter (c : ascii) :
  isNoteLetter c = true -> isNoteLetter (Js.toUpperChar c) = true.
Proof. each_char c; vm_compute; congruence. Qed.

Lemma space_is_no_note (c : ascii) :
  Js.isSpace c = true -> isNoteLetter (Js.toUpperChar c) = false.
Proof. each_char c; vm_compute; congruence. Qed.

Lemma flatMap_outside_notes (c : ascii) (k : string) :
  isNoteLetter (Js.toUpperChar c) = false ->
  flatMap (String (Js.toLowerChar c) k) = Absent \/
  flatMap (String (Js.toLowerChar c) k) = Inherited.
Proof.
  each_char c; intros H; try discriminate H; clear H;
    unfold flatMap; cbn;
    first [ now left
          | destruct (k =? "_proto__")%string; [now right|now left] ].
Qed.

Lemma notes_begin_with_a_letter (s : string) :
  In s NOTES -> exists a s', s = String a s' /\ isNoteLetter a = true.
Proof.
  intros H. repeat (destruct H as [<-|H]; [eexists _, _; split; reflexivity|]).
  contradiction.
Qed.

(** The capital of a single code unit: none within the range, the two
    letters SS, or the one code unit [Js.toUpperChar] gives. *)
Lemma toUpperCase_char (c : ascii) :
  Js.toUpperCase (String c "") = None \/
  Js.toUpperCase (String c "") = Some "SS" \/
  Js.toUpperCase (String c "") = Some (String (Js.toUpperChar c) "").
Proof. each_char c; vm_compute; auto. Qed.

Lemma getNoteIndex_outside_notes (c : ascii) (t : string) :
  isNoteLetter (Js.toUpperChar c) = false ->
  getNoteIndex (String c t) = InvalidNote.
Proof.
  intros Hc. apply getNoteIndex_throws_iff. intros [s [Hs Hin]].
  unfold normalizeToSharp in Hs. cbn [Js.toLowerCase] in Hs.
  destruct (flatMap_outside_notes c (Js.toLowerCase t) Hc) as [E|E];
    rewrite E in Hs; [|discriminate].
  cbn [Js.charAt0 Js.slice1] in Hs.
  apply notes_begin_with_a_letter in Hin. destruct Hin as [a [s' [Heq Ha]]].
  destruct (toUpperCase_char c) as [E'|[E'|E']]; rewrite E' in Hs;
    [discriminate| |]; injection Hs as Hs; rewrite <- Hs in Heq;
    injection Heq as Hhead _; subst a; [discriminate Ha|congruence].
Qed.

Lemma trimEnd_keeps_head (c : ascii) (t : string) :
  Js.isSpace c = false -> exists u, Js.trimEnd (String c t) = String c u.
Proof.
  intros Hc. cbn [Js.trimEnd]. destruct (Js.trimEnd t); rewrite ?Hc; eauto.
Qed.

Lemma matchChord_outside_notes (s : string) :
  beginsOutsideNotes s = true -> matchChord s = None.
Proof.
  destruct s as [|c s]; [reflexivity|]. cbn [beginsOutsideNotes matchChord].
  intros H. destruct (isNoteLetter c) eqn:Hc; [|reflexivity].
  apply upper_of_note_letter in Hc. now rewrite Hc in H.
Qed.

(** A token whose trimmed text begins outside the letters A to G (in
    either case) is its own root, and no note. *)
Lemma outside_notes_root (t : string) :
  beginsOutsideNotes (Js.trim t) = true ->
  root (parseChord t) = t /\ getNoteIndex t = InvalidNote.
Proof.
  intros H. unfold parseChord. rewrite (matchChord_outside_notes _ H).
  split; [reflexivity|].
  destruct t as [|c t]; [reflexivity|].
  apply getNoteIndex_outside_notes.
  destruct (Js.isSpace c) eqn:Hc; [now apply space_is_no_note|].
  unfold Js.trim in H. cbn [Js.trimStart] in H. rewrite Hc in H.
  destruct (trimEnd_keeps_head c t Hc) as [u Hu]. rewrite Hu in H.
  cbn in H. now apply negb_true_iff in H.
Qed.

(** C10, as stated, fails on the token [__proto__]: it is its own root and
    no note, but the tally never records it, and [detectKey] returns.  The
    parenthesis fails as well: the tokens [ C] and [c] begin outside the
    letters A to G and have the root C. *)
Lemma detectKey_returns_on_proto :
  In "__proto__" ["__proto__"] /\
  root (parseChord "__proto__") = "__proto__" /\
  normalizeToSharp "__proto__" = None /\
  getNoteIndex "__proto__" = InvalidNote /\
  detectKey ["__proto__"] = Ok (mkDetection "C" low []) /\
  detectKey [" C"] = Ok (mkDetection "C" low ["C"; "Cm"]) /\
  detectKey ["c"] = Ok (mkDetection "C" low ["C"; "Cm"]).
Proof. vm_compute. auto 10. Qed.

(** C10, amended.  [detectKey] ends in the thrown error on every list that
    holds a token whose parsed root is not the text [__proto__] and does
    not normalise to an entry of [NOTES]; such is every token other than
    [__proto__] whose trimmed text does not begin with a letter A to G in
    either case. *)
Theorem detectKey_throws_on_unknown_root :
  (forall (chords : list string) (c : string),
      In c chords ->
      root (parseChord c) <> "__proto__" ->
      ~ (exists s, normalizeToSharp (root (parseChord c)) = Some s /\ In s NOTES) ->
      detectKey chords = InvalidNote) /\
  (forall (chords : list string) (c : string),
      In c chords ->
      c <> "__proto__" ->
      beginsOutsideNotes (Js.trim c) = true ->
      detectKey chords = InvalidNote).
Proof.
  split.
  - intros chords c Hin Hproto Hnote.
    apply (detectKey_throws chords c Hin Hproto).
    now apply getNoteIndex_throws_iff.
  - intros chords c Hin Hproto Hout.
    destruct (outside_notes_root c Hout) as [Hroot Hthrow].
    apply (detectKey_throws chords c Hin); now rewrite Hroot.
Qed.

Lemma detectKey_throws_on_unknown_root_witness :
  detectKey ["C"; "H7"; "Am"] = InvalidNote /\
  detectKey ["Am"; "Bb"] = InvalidNote.
Proof.
  split.
  - apply (proj2 detectKey_throws_on_unknown_root ["C"; "H7"; "Am"] "H7").
    + simpl. auto.
    + discriminate.
    + reflexivity.
  - apply (proj1 detectKey_throws_on_unknown_root ["Am"; "Bb"] "Bb").
    + simpl. auto.
    + discriminate.
    + vm_compute. intros [s [Hs Hin]]. injection Hs as <-.
      repeat (destruct Hin as [Hin|Hin]; [discriminate|]). exact Hin.
Defined.

(** ** Strings *)

Lemma append_nil_r (s : string) : s ++ "" = s.
Proof. induction s as [|c s IH]; simpl; [reflexivity|now rewrite IH]. Qed.

Lemma append_assoc (x y z : string) : (x ++ y) ++ z = x ++ y ++ z.
Proof. induction x as [|c x IH]; simpl; [reflexivity|now rewrite IH]. Qed.

Lemma hasLineTerminator_app (x y : string) :
  hasLineTerminator (x ++ y) = hasLineTerminator x || hasLineTerminator y.
Proof.
  induction x as [|c x IH]; simpl; [reflexivity|].
  now rewrite IH, orb_assoc.
Qed.

Lemma trimEnd_idempotent (s : string) : Trimmed (Js.trimEnd s).
Proof.
  unfold Trimmed. induction s as [|c s IH]; [reflexivity|].
  cbn [Js.trimEnd]. destruct (Js.trimEnd s) as [|d t] eqn:E.
  - destruct (Js.isSpace c) eqn:Hc; [reflexivity|].
    cbn. now rewrite Hc.
  - cbn [Js.trimEnd] in *. now rewrite IH.
Qed.

Lemma trimmed_tail (c : ascii) (s : string) :
  Trimmed (String c s) -> Trimmed s.
Proof.
  unfold Trimmed. cbn [Js.trimEnd]. destruct (Js.trimEnd s) as [|d t] eqn:E.
  - destruct (Js.isSpace c); [discriminate|]. intros H. now injection H as <-.
  - intros H. now injection H.
Qed.

Lemma trimmed_suffix (x y : string) : Trimmed (x ++ y) -> Trimmed y.
Proof.
  induction x as [|c x IH]; simpl; [auto|].
  intros H. apply IH. now apply trimmed_tail in H.
Qed.

Lemma trimmed_cons (c : ascii) (s : string) :
  Trimmed s -> (s = "" -> Js.isSpace c = false) -> Trimmed (String c s).
Proof.
  unfold Trimmed. intros Hs Hc. cbn [Js.trimEnd]. rewrite Hs.
  destruct s; [now rewrite Hc|reflexivity].
Qed.

Lemma trimmed_app (x y : string) :
  Trimmed y -> y <> "" -> Trimmed (x ++ y).
Proof.
  intros Hy Hne. induction x as [|c x IH]; simpl; [exact Hy|].
  apply trimmed_cons; [exact IH|]. intros E. destruct x; simpl in E; congruence.
Qed.

(** ** Sums of doubles *)

Lemma maxExact_value : Js.maxExact = 9007199254740992.
Proof. reflexivity. Qed.

Lemma toDouble_exact (z : Z) : Z.abs z <= Js.maxExact -> Js.toDouble z = z.
Proof.
  intros H. unfold Js.toDouble. apply Z.leb_le in H. now rewrite H.
Qed.

Lemma add_index (i n : Z) :
  0 <= i < 12 -> exactShift n -> Js.add i n = i + n.
Proof.
  unfold exactShift, Js.add. rewrite maxExact_value. intros Hi Hn.
  apply toDouble_exact. rewrite maxExact_value. lia.
Qed.

Lemma exactShift_small (n : Z) : -12 <= n <= 12 -> exactShift n.
Proof. unfold exactShift. rewrite maxExact_value. lia. Qed.

Lemma exactShift_opp (n : Z) : exactShift n -> exactShift (- n).
Proof. unfold exactShift. now rewrite Z.abs_opp. Qed.

(** ** The sharp table *)

Lemma shift_range (i n : Z) : 0 <= shift i n < 12.
Proof. unfold shift. Z.to_euclidean_division_equations. lia. Qed.

Lemma shift_back (i n : Z) : 0 <= i < 12 -> shift (shift i n) (- n) = i.
Proof. unfold shift. intros H. Z.to_euclidean_division_equations. lia. Qed.

Lemma at_sharp_in (k : Z) : 0 <= k < 12 -> In (at_ SHARP_NOTES k) SHARP_NOTES.
Proof. intros H. each_index k H; cbn; auto 15. Qed.

Lemma getNoteIndex_at_sharp (k : Z) :
  0 <= k < 12 -> getNoteIndex (at_ SHARP_NOTES k) = Ok k.
Proof. intros H. each_index k H; reflexivity. Qed.

Lemma sharp_note_shape (n : string) :
  In n SHARP_NOTES ->
  exists a, isNoteLetter a = true /\ (n = String a "" \/ n = String a "#").
Proof.
  intros H.
  repeat (destruct H as [<-|H];
          [eexists; split; [|first [left; reflexivity|right; reflexivity]];
           reflexivity|]).
  contradiction.
Qed.

Lemma note_letter_is_no_space (a : ascii) :
  isNoteLetter a = true -> Js.isSpace a = false.
Proof. each_char a; vm_compute; congruence. Qed.

Lemma sharp_note_trimmed (n : string) : In n SHARP_NOTES -> Trimmed n /\ n <> "".
Proof.
  intros H. destruct (sharp_note_shape n H) as [a [Ha [-> | ->]]]; split;
    try discriminate.
  - apply trimmed_cons; [reflexivity|]. intros _. now apply note_letter_is_no_space.
  - apply trimmed_cons; [reflexivity|discriminate].
Qed.

(** ** Splitting the bass off *)

Lemma splitBass_cons (c : ascii) (s : string) :
  splitBass (String c s) =
  if isSlashBass (String c s) then ("", Some s)
  else let (q, b) := splitBass s in (String c q, b).
Proof. reflexivity. Qed.

Lemma isSlashBass_head (s : string) :
  isSlashBass s = true -> s = String "/" (Js.slice1 s).
Proof.
  destruct s as [|c0 [|c1 [|c2 [|c3 s]]]]; simpl; try discriminate;
    intros H; repeat (apply andb_true_iff in H; destruct H as [H ?]);
    apply Ascii.eqb_eq in H; now subst.
Qed.

Lemma splitBass_spec (s : string) :
  forall q b, splitBass s = (q, b) -> s = q ++ slash b.
Proof.
  induction s as [|c s IH]; intros q b.
  - cbn. intros H. now injection H as <- <-.
  - rewrite splitBass_cons. destruct (isSlashBass (String c s)) eqn:E.
    + intros H. injection H as <- <-. apply isSlashBass_head in E. exact E.
    + destruct (splitBass s) as [q' b'] eqn:E'. intros H. injection H as <- <-.
      simpl. f_equal. now apply IH.
Qed.

Lemma splitBass_none (s q : string) : splitBass s = (q, None) -> q = s.
Proof.
  intros H. apply splitBass_spec in H. simpl in H.
  now rewrite append_nil_r in H.
Qed.

Lemma isSlashBass_sharp (n : string) :
  In n SHARP_NOTES -> isSlashBass ("/" ++ n) = true.
Proof.
  intros H. destruct (sharp_note_shape n H) as [a [Ha [-> | ->]]]; cbn;
    now rewrite Ha.
Qed.

Lemma isSlashBass_long (c : ascii) (q n : string) :
  In n SHARP_NOTES -> isSlashBass (String c (q ++ "/" ++ n)) = false.
Proof.
  intros H. destruct (sharp_note_shape n H) as [a [Ha [-> | ->]]];
    destruct q as [|c1 [|c2 [|c3 q]]]; cbn;
    rewrite ?andb_false_r; reflexivity.
Qed.

Lemma splitBass_app_bass (q n : string) :
  In n SHARP_NOTES -> splitBass (q ++ "/" ++ n) = (q, Some n).
Proof.
  intros H. induction q as [|c q IH].
  - destruct (sharp_note_shape n H) as [a [Ha [-> | ->]]]; cbn; now rewrite Ha.
  - change (String c q ++ "/" ++ n) with (String c (q ++ "/" ++ n)).
    rewrite splitBass_cons, (isSlashBass_long c q n H), IH. reflexivity.
Qed.

(** ** Parsing *)

Lemma matchChord_cons (c0 : ascii) (rest : string) :
  matchChord (String c0 rest) =
  if isNoteLetter c0 then
    if hasLineTerminator rest then None
    else
      match rest with
      | String c1 rest' =>
          if isAccidental c1 then
            let (q, b) := splitBass rest' in
            Some (String c0 (String c1 ""), q, b)
          else
            let (q, b) := splitBass rest in
            Some (String c0 "", q, b)
      | "" => Some (String c0 "", "", None)
      end
  else None.
Proof. reflexivity. Qed.

Lemma hasLineTerminator_slash (b : option string) :
  (forall nb, b = Some nb -> In nb SHARP_NOTES) ->
  hasLineTerminator (slash b) = false.
Proof.
  destruct b as [nb|]; [|reflexivity]. intros H.
  destruct (sharp_note_shape nb (H nb eq_refl)) as [a [Ha [-> | ->]]];
    each_char a; try discriminate Ha; reflexivity.
Qed.

Lemma matchChord_assemble (n q : string) (b : option string) :
  In n SHARP_NOTES ->
  (forall nb, b = Some nb -> In nb SHARP_NOTES) ->
  Quality q (isSome b) ->
  startsWithAccidental q = false ->
  matchChord (assemble n q b) = Some (n, q, b).
Proof.
  intros Hn Hb [Hlt Hq] Hacc.
  assert (splitBass (q ++ slash b) = (q, b)) as Hsplit.
  { destruct b as [nb|]; simpl.
    - apply splitBass_app_bass. now apply Hb.
    - rewrite append_nil_r. now apply Hq. }
  assert (hasLineTerminator (q ++ slash b) = false) as Hlt'.
  { now rewrite hasLineTerminator_app, Hlt, hasLineTerminator_slash. }
  destruct (sharp_note_shape n Hn) as [a [Ha [-> | ->]]]; unfold assemble.
  - change (String a "" ++ q ++ slash b) with (String a (q ++ slash b)).
    rewrite matchChord_cons, Ha, Hlt'.
    destruct (q ++ slash b) as [|c1 rest'] eqn:E.
    + cbn in Hsplit. injection Hsplit as <- <-. reflexivity.
    + assert (isAccidental c1 = false) as Hc1.
      { destruct q as [|c q']; simpl in E.
        - destruct b as [nb|]; simpl in E; [|discriminate].
          now injection E as <- _.
        - injection E as <- _. exact Hacc. }
      now rewrite Hc1, Hsplit.
  - change (String a "#" ++ q ++ slash b) with (String a (String "#" (q ++ slash b))).
    rewrite matchChord_cons, Ha.
    change (hasLineTerminator (String "#" (q ++ slash b)))
      with (hasLineTerminator (q ++ slash b)).
    rewrite Hlt'. change (isAccidental "#") with true. cbv iota.
    now rewrite Hsplit.
Qed.

Lemma trim_assemble (n q : string) (b : option string) :
  In n SHARP_NOTES ->
  (forall nb, b = Some nb -> In nb SHARP_NOTES) ->
  Quality q (isSome b) ->
  Js.trim (assemble n q b) = assemble n q b.
Proof.
  intros Hn Hb [_ Hq].
  assert (Trimmed (q ++ slash b)) as Ht.
  { destruct b as [nb|]; simpl.
    - destruct (sharp_note_trimmed nb (Hb nb eq_refl)) as [Ht Hne].
      apply trimmed_app; [|discriminate].
      apply trimmed_cons; [exact Ht|]. intros E. contradiction.
    - rewrite append_nil_r. now apply Hq. }
  unfold Js.trim, assemble.
  destruct (sharp_note_shape n Hn) as [a [Ha [-> | ->]]];
    pose proof (note_letter_is_no_space a Ha) as Hsp.
  - change (String a "" ++ q ++ slash b) with (String a (q ++ slash b)).
    cbn [Js.trimStart]. rewrite Hsp. apply trimmed_cons; auto.
  - change (String a "#" ++ q ++ slash b) with (String a (String "#" (q ++ slash b))).
    cbn [Js.trimStart]. rewrite Hsp.
    apply trimmed_cons; [|discriminate]. apply trimmed_cons; [exact Ht|reflexivity].
Qed.

Lemma assemble_not_blank (n q : string) (b : option string) :
  In n SHARP_NOTES -> assemble n q b <> "".
Proof.
  intros Hn. destruct (sharp_note_shape n Hn) as [a [_ [-> | ->]]]; discriminate.
Qed.

Lemma parseChord_assemble (n q : string) (b : option string) :
  In n SHARP_NOTES ->
  (forall nb, b = Some nb -> In nb SHARP_NOTES) ->
  Quality q (isSome b) ->
  startsWithAccidental q = false ->
  parseChord (assemble n q b) = mkParsed n q b.
Proof.
  intros Hn Hb Hq Hacc. unfold parseChord.
  now rewrite trim_assemble, matchChord_assemble.
Qed.

Lemma matchChord_spec (s r q : string) (b : option string) :
  matchChord s = Some (r, q, b) ->
  s = assemble r q b /\ hasLineTerminator q = false /\
  (b = None -> splitBass q = (q, None)).
Proof.
  destruct s as [|c0 rest]; [discriminate|]. rewrite matchChord_cons.
  destruct (isNoteLetter c0); [|discriminate].
  destruct (hasLineTerminator rest) eqn:Hlt; [discriminate|].
  assert (forall t, hasLineTerminator t = false -> splitBass t = (q, b) ->
                    hasLineTerminator q = false /\
                    (b = None -> splitBass q = (q, None))) as Hsplit.
  { intros t Ht E. pose proof (splitBass_spec t q b E) as Hspec. split.
    - rewrite Hspec, hasLineTerminator_app in Ht. now apply orb_false_iff in Ht.
    - intros ->. simpl in Hspec. rewrite append_nil_r in Hspec. now subst t. }
  destruct rest as [|c1 rest'].
  - intros H. injection H as <- <- <-. auto.
  - destruct (isAccidental c1).
    + destruct (splitBass rest') as [q' b'] eqn:E. intros H. injection H as <- <- <-.
      split.
      * unfold assemble. simpl. now rewrite (splitBass_spec _ _ _ E) at 1.
      * apply (Hsplit rest'); [|exact E].
        simpl in Hlt. now apply orb_false_iff in Hlt.
    + destruct (splitBass (String c1 rest')) as [q' b'] eqn:E.
      intros H. injection H as <- <- <-. split.
      * unfold assemble. simpl. now rewrite (splitBass_spec _ _ _ E) at 1.
      * now apply (Hsplit (String c1 rest')).
Qed.

Lemma parseChord_quality (c : string) :
  Quality (quality (parseChord c)) (isSome (bass (parseChord c))).
Proof.
  unfold parseChord.
  destruct (matchChord (Js.trim c)) as [[[r q] b]|] eqn:E; cbn [quality bass].
  - destruct (matchChord_spec _ _ _ _ E) as [Hs [Hlt Hq]]. split; [exact Hlt|].
    destruct b as [nb|]; [discriminate|]. intros _. split; [now apply Hq|].
    pose proof (trimEnd_idempotent (Js.trimStart c)) as Ht.
    fold (Js.trim c) in Ht. rewrite Hs in Ht. unfold assemble in Ht.
    apply trimmed_suffix in Ht. simpl in Ht. now rewrite append_nil_r in Ht.
  - split; [reflexivity|]. intros _. split; reflexivity.
Qed.

(** ** Transposing there and back *)

Lemma spell_not_empty (k : Z) : 0 <= k < 12 -> (spell k =? "")%string = false.
Proof.
  intros H. apply String.eqb_neq.
  now destruct (sharp_note_trimmed _ (at_sharp_in k H)).
Qed.

(** One call of [transposeChord] with a shift other than zero, in terms of
    the parsed chord. *)
Lemma transposeNote_exact (note : string) (n i : Z) (useFlats : bool) :
  getNoteIndex note = Ok i ->
  exactShift n ->
  transposeNote note n useFlats
  = Ok (at_ (if useFlats then FLAT_NOTES else SHARP_NOTES) (shift i n)).
Proof.
  intros Hi Hn. unfold transposeNote. rewrite Hi. cbn [bind].
  now rewrite (add_index i n (getNoteIndex_range _ _ Hi) Hn).
Qed.

Lemma transposeChord_parsed (c : string) (n i : Z) (j : option Z) :
  n <> 0 ->
  exactShift n ->
  Js.trim c <> "" ->
  getNoteIndex (root (parseChord c)) = Ok i ->
  pitchClass (bass (parseChord c)) = option_map Ok j ->
  transposeChord c n false =
  Ok (chordOf (shift i n) (quality (parseChord c))
              (option_map (fun j0 => shift j0 n) j)).
Proof.
  intros Hn He Hc Hroot Hbass. unfold transposeChord.
  apply Z.eqb_neq in Hn. apply String.eqb_neq in Hc. rewrite Hn, Hc. cbn [orb].
  destruct (parseChord c) as [r q b]. cbn [root quality bass] in *.
  rewrite (transposeNote_exact r n i false Hroot He). cbn [bind].
  fold (spell (shift i n)).
  destruct b as [b0|], j as [j0|]; try discriminate Hbass.
  - cbn in Hbass. injection Hbass as Hb0.
    destruct (String.eqb_spec b0 "") as [->|_]; [discriminate Hb0|].
    rewrite (transposeNote_exact b0 n j0 false Hb0 He). cbn [bind].
    fold (spell (shift j0 n)).
    now rewrite (spell_not_empty _ (shift_range j0 n)).
  - cbn [bind option_map]. unfold chordOf, assemble. cbn [option_map slash].
    now rewrite append_nil_r.
Qed.

Lemma parseChord_chordOf (i : Z) (q : string) (j : option Z) :
  0 <= i < 12 ->
  (forall j0, j = Some j0 -> 0 <= j0 < 12) ->
  Quality q (isSome j) ->
  startsWithAccidental q = false ->
  Js.trim (chordOf i q j) <> "" /\
  parseChord (chordOf i q j) = mkParsed (spell i) q (option_map spell j).
Proof.
  intros Hi Hj Hq Hacc.
  assert (forall nb, option_map spell j = Some nb -> In nb SHARP_NOTES) as Hb.
  { intros nb E. destruct j as [j0|]; [|discriminate]. injection E as <-.
    apply at_sharp_in. now apply Hj. }
  assert (isSome (option_map spell j) = isSome j) as Hsome by now destruct j.
  unfold chordOf. split.
  - rewrite trim_assemble; [now apply assemble_not_blank, at_sharp_in| | |].
    + now apply at_sharp_in.
    + exact Hb.
    + now rewrite Hsome.
  - apply parseChord_assemble; [now apply at_sharp_in|exact Hb| |exact Hacc].
    now rewrite Hsome.
Qed.

Lemma pitchClass_spelled (j : option Z) :
  (forall j0, j = Some j0 -> 0 <= j0 < 12) ->
  pitchClass (option_map spell j) = option_map Ok j.
Proof.
  destruct j as [j0|]; [|reflexivity]. intros H. cbn.
  unfold spell. now rewrite getNoteIndex_at_sharp by now apply H.
Qed.

Lemma transposeChord_chordOf (i : Z) (q : string) (j : option Z) (n : Z) :
  0 <= i < 12 ->
  (forall j0, j = Some j0 -> 0 <= j0 < 12) ->
  Quality q (isSome j) ->
  startsWithAccidental q = false ->
  n <> 0 ->
  exactShift n ->
  transposeChord (chordOf i q j) n false =
  Ok (chordOf (shift i n) q (option_map (fun j0 => shift j0 n) j)).
Proof.
  intros Hi Hj Hq Hacc Hn He.
  destruct (parseChord_chordOf i q j Hi Hj Hq Hacc) as [Hne Hparse].
  rewrite (transposeChord_parsed (chordOf i q j) n i j Hn He Hne).
  - now rewrite Hparse.
  - rewrite Hparse. cbn [root]. now apply getNoteIndex_at_sharp.
  - rewrite Hparse. cbn [bass]. now apply pitchClass_spelled.
Qed.

(** The pitch classes of the bass, when every bass there is is a known
    note. *)
Lemma known_bass (b : option string) :
  (forall b0, b = Some b0 -> exists j, getNoteIndex b0 = Ok j) ->
  exists j : option Z,
    pitchClass b = option_map Ok j /\ isSome j = isSome b /\
    (forall j0, j = Some j0 -> 0 <= j0 < 12).
Proof.
  destruct b as [b0|]; intros H.
  - destruct (H b0 eq_refl) as [j0 Hj0]. exists (Some j0). cbn. rewrite Hj0.
    split; [reflexivity|split; [reflexivity|]].
    intros j' E. injection E as <-. now apply (getNoteIndex_range b0).
  - exists None. repeat split; discriminate.
Qed.

(** C4, as stated, fails where the quality begins with an accidental: the
    chord [C##5] has the root [C#] (pitch class 1) and no bass; a semitone
    down it becomes [C#5], whose root is [C#] again, and a semitone up
    [D5], of pitch class 2.  On [C#b5] the way back does not even return:
    a semitone up it becomes [Db5], whose root [Db] is refused. *)
Lemma round_trip_breaks_on_accidental_quality :
  Js.trim "C##5" <> "" /\
  parseChord "C##5" = mkParsed "C#" "#5" None /\
  getNoteIndex "C#" = Ok 1 /\
  -12 <= -1 <= 12 /\
  transposeChord "C##5" (-1) false = Ok "C#5" /\
  transposeChord "C#5" (- -1) false = Ok "D5" /\
  getNoteIndex (root (parseChord "D5")) = Ok 2 /\
  getNoteIndex (root (parseChord "D5")) <> getNoteIndex (root (parseChord "C##5")) /\
  parseChord "C#b5" = mkParsed "C#" "b5" None /\
  transposeChord "C#b5" 1 false = Ok "Db5" /\
  transposeChord "Db5" (-1) false = InvalidNote.
Proof. vm_compute. repeat split; discriminate. Qed.

(** C4, amended.  For a chord that is not blank, whose parsed root (and
    bass, if there is one) is known to [getNoteIndex] and whose quality
    does not begin with a sharp sign or the letter b, and for every shift
    [n] from -12 to 12: transposing by [n] and then by [-n] returns, and
    the root and the bass of the chord that comes back have the pitch
    classes of the root and the bass of the chord that went in. *)
Theorem transposeChord_round_trip (c : string) (n i : Z) :
  Js.trim c <> "" ->
  getNoteIndex (root (parseChord c)) = Ok i ->
  (forall b, bass (parseChord c) = Some b -> exists j, getNoteIndex b = Ok j) ->
  startsWithAccidental (quality (parseChord c)) = false ->
  -12 <= n <= 12 ->
  exists c1 c2,
    transposeChord c n false = Ok c1 /\
    transposeChord c1 (- n) false = Ok c2 /\
    getNoteIndex (root (parseChord c2)) = getNoteIndex (root (parseChord c)) /\
    pitchClass (bass (parseChord c2)) = pitchClass (bass (parseChord c)).
Proof.
  intros Hc Hroot Hbass Hacc Hsmall.
  destruct (Z.eq_dec n 0) as [->|Hn].
  - exists c, c. repeat split; reflexivity.
  - pose proof (exactShift_small n Hsmall) as He.
    destruct (known_bass _ Hbass) as [j [Hj [Hsome Hrange]]].
    pose proof (getNoteIndex_range _ _ Hroot) as Hi.
    pose proof (parseChord_quality c) as Hq. rewrite <- Hsome in Hq.
    set (q := quality (parseChord c)) in *.
    set (j1 := option_map (fun j0 => shift j0 n) j).
    assert (forall j0, j1 = Some j0 -> 0 <= j0 < 12) as Hrange1.
    { intros j0 E. unfold j1 in E. destruct j as [j'|]; [|discriminate].
      injection E as <-. apply shift_range. }
    assert (isSome j1 = isSome j) as Hsome1 by (unfold j1; now destruct j).
    assert (option_map (fun j0 => shift j0 (- n)) j1 = j) as Hback.
    { unfold j1. destruct j as [j'|]; [|reflexivity]. cbn.
      now rewrite shift_back by now apply Hrange. }
    exists (chordOf (shift i n) q j1), (chordOf i q j). split; [|split].
    + now apply transposeChord_parsed.
    + rewrite transposeChord_chordOf;
        [ now rewrite shift_back, Hback
        | apply shift_range | exact Hrange1 | now rewrite Hsome1 | exact Hacc | lia
        | now apply exactShift_opp ].
    + destruct (parseChord_chordOf i q j Hi Hrange Hq Hacc) as [_ ->].
      cbn [root bass]. rewrite Hroot, Hj. split.
      * now apply getNoteIndex_at_sharp.
      * now apply pitchClass_spelled.
Qed.

Lemma transposeChord_round_trip_witness :
  exists c1 c2,
    transposeChord " F#m7/C#" 5 false = Ok c1 /\
    transposeChord c1 (- 5) false = Ok c2 /\
    getNoteIndex (root (parseChord c2)) = getNoteIndex (root (parseChord " F#m7/C#")) /\
    pitchClass (bass (parseChord c2)) = pitchClass (bass (parseChord " F#m7/C#")).
Proof.
  apply (transposeChord_round_trip " F#m7/C#" 5 6).
  - discriminate.
  - reflexivity.
  - intros b H. injection H as <-. now exists 1.
  - reflexivity.
  - lia.
Defined.

(** ** Further properties *)

(** [getNoteIndex] ends in the thrown error exactly when the note, once
    normalised, is not one of the twelve entries of [NOTES]. *)
Theorem getNoteIndex_throws_exactly_on_unknown_notes (n : string) :
  getNoteIndex n = InvalidNote <->
  ~ (exists s, normalizeToSharp n = Some s /\ In s NOTES).
Proof. apply getNoteIndex_throws_iff. Qed.

(** Where [getSemitoneDistance] returns, the distance the other way round is
    its opposite, and it lies between -6 and 6. *)
Theorem getSemitoneDistance_antisymmetric (a b : string) (d : Z) :
  getSemitoneDistance a b = Ok d ->
  getSemitoneDistance b a = Ok (- d) /\ -6 <= d <= 6.
Proof. apply getSemitoneDistance_antisym. Qed.

Lemma getSemitoneDistance_antisymmetric_witness :
  getSemitoneDistance "G" "Am" = Ok (- -2) /\ -6 <= -2 <= 6.
Proof. apply (getSemitoneDistance_antisymmetric "Am" "G" (-2)). reflexivity. Defined.

(** With a shift other than zero, and small enough for its sums with the
    indices of the note table to be exact (at most 2 to the power of 53, less
    12, in magnitude), a chord that is not blank and whose root and bass are
    known notes comes back as the shifted root in its sharp spelling, the
    quality as it was, and the shifted bass behind a slash. *)
Theorem transposeChord_keeps_quality (c : string) (n i : Z) (j : option Z) :
  n <> 0 ->
  exactShift n ->
  Js.trim c <> "" ->
  getNoteIndex (root (parseChord c)) = Ok i ->
  pitchClass (bass (parseChord c)) = option_map Ok j ->
  transposeChord c n false =
  Ok (spell (shift i n) ++ quality (parseChord c)
      ++ slash (option_map (fun j0 => spell (shift j0 n)) j)) /\
  In (spell (shift i n)) SHARP_NOTES.
Proof.
  intros Hn He Hc Hroot Hbass. split.
  - rewrite (transposeChord_parsed c n i j Hn He Hc Hroot Hbass).
    unfold chordOf, assemble. now destruct j.
  - apply at_sharp_in, shift_range.
Qed.

Lemma transposeChord_keeps_quality_witness :
  transposeChord "C/E" (-3) false = Ok "A/C#" /\ In "A" SHARP_NOTES.
Proof.
  apply (transposeChord_keeps_quality "C/E" (-3) 0 (Some 4)).
  - lia.
  - apply exactShift_small. lia.
  - discriminate.
  - reflexivity.
  - reflexivity.
Defined.

End TransposeFacts.

(** * Properties of the validation pipeline *)

Module ValidationFacts.

Import Validation Predicates.

(** ** The embedding on the scenarios of the specification *)

Lemma validation_scenarios :
  validateLyrics "" = mkResult false [mkError "lyrics" "Lyrics are empty" critical] [] /\
  validateMetadata schemeOf sampleMetadata None
    = mkResult false
        [ mkError "id" "Song ID is missing" critical;
          mkError "title" "Song title is missing or empty" critical;
          mkError "url" "Invalid song URL" major ] [] /\
  levenshtein "kitten" "sitting" = 3%nat /\
  round (Js.double (calculateStringSimilarity "hello world" "hallo welt" * 100)) = 64 /\
  map isValidChord ["C7"; "C/E"; "Am"; "H"] = [true; true; true; false].
Proof. vm_compute. repeat split; congruence. Qed.

(** Lyrics of a hundred no-break spaces are blank.  Seventeen edits on
    forty letters: the doubles give a similarity of 57.49999999999999 per
    cent, which is rounded down, where the fraction 23/40 itself would be
    rounded up. *)
Lemma similarity_is_rounded_as_a_double :
  validateLyrics (String.concat "" (repeat (String (ascii_of_N 160) "") 100))
    = mkResult false [mkError "lyrics" "Lyrics are empty" critical] [] /\
  levenshtein "aaaaaaaaaaaaaaaaaaaaaaaaaaaaaaaaaaaaaaaa"
              "aaaaaaaaaaaaaaaaaaaaaaabbbbbbbbbbbbbbbbb" = 17%nat /\
  round (Js.double
           (calculateStringSimilarity "aaaaaaaaaaaaaaaaaaaaaaaaaaaaaaaaaaaaaaaa"
                                      "aaaaaaaaaaaaaaaaaaaaaaabbbbbbbbbbbbbbbbb"
            * 100)) = 57 /\
  round ((23 # 40) * 100) = 58.
Proof. vm_compute. repeat split. Qed.

Lemma noCritical_iff (es : list ValidationError) :
  noCritical es = true <-> NoCriticalError es.
Proof.
  unfold noCritical, NoCriticalError. induction es as [|e es IH]; simpl.
  - split; [intros _ e []|reflexivity].
  - destruct (severity e) eqn:He; simpl.
    + split; [discriminate|]. intros H. exfalso. now apply (H e); [left|].
    + rewrite IH. split.
      * intros H e' [<-|Hin]; [congruence|now apply H].
      * intros H e' Hin. apply H. now right.
    + rewrite IH. split.
      * intros H e' [<-|Hin]; [congruence|now apply H].
      * intros H e' Hin. apply H. now right.
Qed.

Lemma noCritical_app (es es' : list ValidationError) :
  noCritical (es ++ es') = noCritical es && noCritical es'.
Proof.
  apply eq_true_iff_eq. rewrite andb_true_iff, !noCritical_iff.
  unfold NoCriticalError. split.
  - intros H. split; intros e Hin; apply H, in_or_app; auto.
  - intros [H1 H2] e Hin. apply in_app_or in Hin. destruct Hin; auto.
Qed.

Section WithUrl.

Variable urlProtocol : string -> option string.

Lemma validateMetadata_coherent (m : SongMetadata) (t : option string) :
  Coherent (validateMetadata urlProtocol m t).
Proof.
  unfold Coherent.
  change (valid (validateMetadata urlProtocol m t))
    with (noCritical (errors (validateMetadata urlProtocol m t))).
  apply noCritical_iff.
Qed.

Lemma validateLyrics_coherent (l : string) : Coherent (validateLyrics l).
Proof.
  unfold Coherent, validateLyrics, NoCriticalError.
  destruct (blank l); cbn [valid errors].
  - split; [discriminate|]. intros H. exfalso.
    now apply (H (mkError "lyrics" "Lyrics are empty" critical)); [left|].
  - destruct (String.length l <? MIN_LYRICS_LENGTH)%nat; cbn.
    + split; [discriminate|]. intros H. exfalso.
      eapply H; [left; reflexivity|reflexivity].
    + split; [intros _ e []|reflexivity].
Qed.

Lemma validateParsedSong_coherent (song : ParsedSong) :
  Coherent (validateParsedSong urlProtocol song).
Proof.
  unfold Coherent.
  change (valid (validateParsedSong urlProtocol song))
    with (noCritical (errors (validateParsedSong urlProtocol song))).
  apply noCritical_iff.
Qed.

(** The three ways out of [validateSong]. *)
Lemma validateSong_cases (m : SongMetadata) (l : string) (o : option Options) :
  let mr := validateMetadata urlProtocol m (expectedTitleOf o) in
  let lr := validateLyrics l in
  (valid mr = false /\ 2 <= retryCountOf o /\
   validateSong urlProtocol m l o = mr) \/
  (valid mr = true /\ valid lr = false /\ 2 <= retryCountOf o /\
   validateSong urlProtocol m l o = lr) \/
  (~ (2 <= retryCountOf o /\ (valid mr = false \/ valid lr = false)) /\
   validateSong urlProtocol m l o =
     mkResult (noCritical (errors mr ++ errors lr))
              (errors mr ++ errors lr) (warnings mr ++ warnings lr)).
Proof.
  intros mr lr. unfold validateSong. fold mr. fold lr. unfold MAX_RETRIES.
  destruct (Z.leb_spec 2 (retryCountOf o)) as [Hr|Hr];
    destruct (valid mr) eqn:Hm; destruct (valid lr) eqn:Hl; cbn [negb andb];
    try (left; now auto);
    try (right; left; now auto);
    right; right; (split; [|reflexivity]); intros [H1 [H2|H2]];
    first [lia | discriminate].
Qed.

Lemma validateSong_coherent (m : SongMetadata) (l : string) (o : option Options) :
  Coherent (validateSong urlProtocol m l o).
Proof.
  destruct (validateSong_cases m l o) as [[_ [_ ->]]|[[_ [_ [_ ->]]]|[_ ->]]].
  - apply validateMetadata_coherent.
  - apply validateLyrics_coherent.
  - unfold Coherent. cbn [valid errors]. apply noCritical_iff.
Qed.

(** C3.  Every result of [validateMetadata], [validateLyrics],
    [validateParsedSong] and [validateSong] is valid exactly when none of
    its errors is critical.  Hence a union of errors is free of critical
    ones only if both parts are, a critical error anywhere makes the
    union invalid, a valid result of [validateSong] needs both checks
    valid, and two such results with the same errors agree on validity
    whatever their warnings. *)
Theorem valid_iff_no_critical_error :
  (forall m t, Coherent (validateMetadata urlProtocol m t)) /\
  (forall l, Coherent (validateLyrics l)) /\
  (forall song, Coherent (validateParsedSong urlProtocol song)) /\
  (forall m l o, Coherent (validateSong urlProtocol m l o)) /\
  (forall es es', noCritical (es ++ es') = true ->
                  noCritical es = true /\ noCritical es' = true) /\
  (forall es e es', severity e = critical ->
                    noCritical (es ++ e :: es') = false) /\
  (forall m l o,
      valid (validateSong urlProtocol m l o) = true ->
      valid (validateMetadata urlProtocol m (expectedTitleOf o)) = true /\
      valid (validateLyrics l) = true) /\
  (forall r r', Coherent r -> Coherent r' -> errors r = errors r' ->
                valid r = valid r').
Proof.
  split; [exact validateMetadata_coherent|].
  split; [exact validateLyrics_coherent|].
  split; [exact validateParsedSong_coherent|].
  split; [exact validateSong_coherent|].
  split; [|split; [|split]].
  - intros es es' H. rewrite noCritical_app in H. now apply andb_true_iff in H.
  - intros es e es' He. apply not_true_is_false. intros H.
    apply noCritical_iff in H. apply (H e); [|exact He].
    apply in_or_app. right. now left.
  - intros m l o H.
    destruct (validateSong_cases m l o) as [[Hm [_ E]]|[[_ [Hl [_ E]]]|[_ E]]];
      rewrite E in H.
    + congruence.
    + congruence.
    + cbn [valid] in H. rewrite noCritical_app in H.
      apply andb_true_iff in H. destruct H as [H1 H2]. split.
      * apply validateMetadata_coherent. now apply noCritical_iff.
      * apply validateLyrics_coherent. now apply noCritical_iff.
  - intros r r' Hr Hr' E. apply eq_true_iff_eq.
    unfold Coherent in *. now rewrite Hr, Hr', E.
Qed.

(** C7.  [validateSong] checks the metadata, then the lyrics.  With a
    retry count of at least 2 it returns the result of the metadata
    check alone when that one is invalid, and the result of the lyrics
    check alone when the metadata is valid and the lyrics are not; in
    every other case it returns the errors and the warnings of both
    checks, metadata first, valid exactly when no error of the union is
    critical. *)
Theorem validateSong_retry_policy (m : SongMetadata) (l : string)
        (o : option Options) :
  let metadataResult := validateMetadata urlProtocol m (expectedTitleOf o) in
  let lyricsResult := validateLyrics l in
  let result := validateSong urlProtocol m l o in
  (2 <= retryCountOf o -> valid metadataResult = false ->
   result = metadataResult) /\
  (2 <= retryCountOf o -> valid metadataResult = true ->
   valid lyricsResult = false ->
   result = lyricsResult) /\
  (~ (2 <= retryCountOf o /\
      (valid metadataResult = false \/ valid lyricsResult = false)) ->
   errors result = (errors metadataResult ++ errors lyricsResult)%list /\
   warnings result = (warnings metadataResult ++ warnings lyricsResult)%list /\
   (valid result = true <->
    NoCriticalError (errors metadataResult ++ errors lyricsResult))).
Proof.
  intros mr lr result.
  destruct (validateSong_cases m l o) as [[Hm [Hr E]]|[[Hm [Hl [Hr E]]]|[Hn E]]];
    fold mr in Hm, E || fold mr in E; fold lr in E; fold result in E.
  - split; [auto|split].
    + intros _ H. congruence.
    + intros H. exfalso. apply H. auto.
  - fold lr in Hl. split; [|split].
    + intros _ H. congruence.
    + auto.
    + intros H. exfalso. apply H. auto.
  - fold mr lr in Hn. split; [|split].
    + intros Hr Hm. exfalso. apply Hn. auto.
    + intros Hr _ Hl. exfalso. apply Hn. auto.
    + intros _. rewrite E. cbn [valid errors warnings].
      split; [reflexivity|split; [reflexivity|]]. apply noCritical_iff.
Qed.

End WithUrl.

Lemma validateSong_retry_policy_witness :
  validateSong schemeOf sampleMetadata "" (Some (mkOptions None (Some 2)))
  = validateMetadata schemeOf sampleMetadata None /\
  validateSong schemeOf (mkMetadata 7 "T" "X" None None None None "not a url") ""
               (Some (mkOptions None (Some 3)))
  = validateLyrics "".
Proof.
  split.
  - apply (proj1 (validateSong_retry_policy schemeOf sampleMetadata ""
                    (Some (mkOptions None (Some 2))))).
    + cbn. lia.
    + reflexivity.
  - apply (proj1 (proj2 (validateSong_retry_policy schemeOf
                    (mkMetadata 7 "T" "X" None None None None "not a url") ""
                    (Some (mkOptions None (Some 3)))))).
    + cbn. lia.
    + reflexivity.
    + reflexivity.
Defined.

Lemma valid_iff_no_critical_error_witness :
  valid (validateMetadata schemeOf sampleMetadata None) = false /\
  valid (validateSong schemeOf sampleMetadata "" None) = false.
Proof.
  split.
  - apply not_true_is_false. intros H.
    apply (proj1 (valid_iff_no_critical_error schemeOf) sampleMetadata None) in H.
    apply (H (mkError "id" "Song ID is missing" critical)); [|reflexivity].
    cbn. auto.
  - apply not_true_is_false. intros H.
    apply (proj1 (proj2 (proj2 (proj2 (valid_iff_no_critical_error schemeOf))))
             sampleMetadata "" None) in H.
    apply (H (mkError "id" "Song ID is missing" critical)); [|reflexivity].
    cbn. auto.
Defined.

End ValidationFacts.

(** * Further properties of the transposition engine *)

From Stdlib Require Import Permutation Sorted.

Module TransposeRestFacts.

Import Transpose TransposeRest Predicates MorePredicates TransposeFacts.

(** ** The error monad *)

Lemma Ok_inj {A : Type} (a b : A) : Ok a = Ok b -> a = b.
Proof. intros H. now injection H. Qed.

Lemma bind_ok_inv {A B : Type} (m : result A) (k : A -> result B) (y : B) :
  bind m k = Ok y -> exists a, m = Ok a /\ k a = Ok y.
Proof. destruct m as [a|]; [|discriminate]. intros H. now exists a. Qed.

(** ** Shifts *)

Lemma shift_periodic (i n : Z) : shift i (n + 12) = shift i n.
Proof. unfold shift. Z.to_euclidean_division_equations. lia. Qed.

Lemma shift_shift (i m n : Z) : 0 <= i < 12 -> shift (shift i m) n = shift i (m + n).
Proof. unfold shift. intros H. Z.to_euclidean_division_equations. lia. Qed.

Lemma transposeNote_periodic (r : string) (n : Z) (useFlats : bool) :
  exactShift n -> exactShift (n + 12) ->
  transposeNote r (n + 12) useFlats = transposeNote r n useFlats.
Proof.
  intros He He'. destruct (getNoteIndex r) as [i|] eqn:E.
  - rewrite (transposeNote_exact r n i useFlats E He).
    rewrite (transposeNote_exact r (n + 12) i useFlats E He').
    now rewrite shift_periodic.
  - unfold transposeNote. now rewrite E.
Qed.

(** Twelve semitones more change nothing: for a shift [n] other than 0 and
    -12, [transposeChord] gives for [n + 12] what it gives for [n], the
    thrown error included, in either spelling.  Both shifts are small enough
    for their sums with the indices of the note table to be exact: at most
    2 to the power of 53, less 12, in magnitude. *)
Theorem transposeChord_octave_periodic (c : string) (n : Z) (useFlats : bool) :
  n <> 0 -> n + 12 <> 0 ->
  exactShift n -> exactShift (n + 12) ->
  transposeChord c (n + 12) useFlats = transposeChord c n useFlats.
Proof.
  intros Hn Hn' He He'. unfold transposeChord.
  apply Z.eqb_neq in Hn. apply Z.eqb_neq in Hn'. rewrite Hn, Hn'. cbn [orb].
  destruct (Js.trim c =? "")%string; [reflexivity|].
  rewrite (transposeNote_periodic _ n useFlats He He').
  destruct (bass (parseChord c)) as [b|]; [|reflexivity].
  now rewrite (transposeNote_periodic b n useFlats He He').
Qed.

Lemma transposeChord_octave_periodic_witness :
  transposeChord "F#m7/C#" (-7 + 12) true = transposeChord "F#m7/C#" (-7) true.
Proof.
  apply transposeChord_octave_periodic.
  - lia.
  - lia.
  - apply exactShift_small. lia.
  - apply exactShift_small. lia.
Defined.

(** Two shifts in a row are the shift by their sum: for a chord that is not
    blank, whose root and bass are known notes and whose quality does not
    begin with an accidental, and shifts [m], [n] and [m + n] other than
    zero and small enough for their sums with the indices of the note table
    to be exact (at most 2 to the power of 53, less 12, in magnitude),
    transposing by [m] returns a chord whose transposition by [n] is the
    transposition of the first chord by [m + n]. *)
Theorem transposeChord_compose (c : string) (m n i : Z) :
  Js.trim c <> "" ->
  getNoteIndex (root (parseChord c)) = Ok i ->
  (forall b, bass (parseChord c) = Some b -> exists j, getNoteIndex b = Ok j) ->
  startsWithAccidental (quality (parseChord c)) = false ->
  m <> 0 -> n <> 0 -> m + n <> 0 ->
  exactShift m -> exactShift n -> exactShift (m + n) ->
  exists c1,
    transposeChord c m false = Ok c1 /\
    transposeChord c1 n false = transposeChord c (m + n) false.
Proof.
  intros Hc Hroot Hbass Hacc Hm Hn Hmn Em En Emn.
  destruct (known_bass _ Hbass) as [j [Hj [Hsome Hrange]]].
  pose proof (getNoteIndex_range _ _ Hroot) as Hi.
  pose proof (parseChord_quality c) as Hq. rewrite <- Hsome in Hq.
  set (q := quality (parseChord c)) in *.
  set (j1 := option_map (fun j0 => shift j0 m) j).
  assert (forall j0, j1 = Some j0 -> 0 <= j0 < 12) as Hrange1.
  { intros j0 E. unfold j1 in E. destruct j as [j'|]; [|discriminate].
    injection E as <-. apply shift_range. }
  assert (isSome j1 = isSome j) as Hsome1 by (unfold j1; now destruct j).
  exists (chordOf (shift i m) q j1). split.
  - now apply transposeChord_parsed.
  - rewrite (transposeChord_parsed c (m + n) i j Hmn Emn Hc Hroot Hj). fold q.
    rewrite transposeChord_chordOf;
      [ | apply shift_range | exact Hrange1 | now rewrite Hsome1 | exact Hacc
        | exact Hn | exact En ].
    rewrite shift_shift by exact Hi. do 2 f_equal.
    unfold j1. destruct j as [j'|]; [|reflexivity]. cbn.
    now rewrite shift_shift by now apply Hrange.
Qed.

Lemma transposeChord_compose_witness :
  exists c1,
    transposeChord "Am7/G" 3 false = Ok c1 /\
    transposeChord c1 4 false = transposeChord "Am7/G" (3 + 4) false.
Proof.
  apply (transposeChord_compose "Am7/G" 3 4 9).
  - discriminate.
  - reflexivity.
  - intros b H. injection H as <-. now exists 7.
  - reflexivity.
  - lia.
  - lia.
  - lia.
  - apply exactShift_small. lia.
  - apply exactShift_small. lia.
  - apply exactShift_small. lia.
Defined.

(** The distance between two keys is a shift that lands on the target: when
    [getSemitoneDistance a b] returns [d], transposing the root of [a] by
    [d] returns a note with the pitch class of the root of [b]. *)
Theorem getSemitoneDistance_reaches_target (a b : string) (d : Z) :
  getSemitoneDistance a b = Ok d ->
  exists t,
    transposeNote (Js.removeFirst "m" a) d false = Ok t /\
    getNoteIndex t = getNoteIndex (Js.removeFirst "m" b).
Proof.
  intros H. destruct (getSemitoneDistance_antisym a b d H) as [_ Hd].
  revert H. unfold getSemitoneDistance.
  pose proof (getNoteIndex_range (Js.removeFirst "m" a)) as Ha.
  pose proof (getNoteIndex_range (Js.removeFirst "m" b)) as Hb.
  destruct (getNoteIndex (Js.removeFirst "m" a)) as [i|] eqn:Ei; [|discriminate].
  destruct (getNoteIndex (Js.removeFirst "m" b)) as [j|]; [|discriminate].
  specialize (Ha i eq_refl). specialize (Hb j eq_refl). cbn [bind].
  intros H. apply Ok_inj in H.
  rewrite (transposeNote_exact _ d i false Ei) by (apply exactShift_small; lia).
  eexists. split; [reflexivity|].
  assert (shift i d = j) as ->.
  { subst d. unfold shift. destruct (Z.gtb_spec (j - i) 6);
      repeat match goal with
             | |- context [?x <? ?y] => destruct (Z.ltb_spec x y)
             end; Z.to_euclidean_division_equations; lia. }
  now apply getNoteIndex_at_sharp.
Qed.

Lemma getSemitoneDistance_reaches_target_witness :
  exists t,
    transposeNote (Js.removeFirst "m" "Am") (-2) false = Ok t /\
    getNoteIndex t = getNoteIndex (Js.removeFirst "m" "G").
Proof. apply (getSemitoneDistance_reaches_target "Am" "G" (-2)). reflexivity. Defined.

(** ** Lists of chords *)

Lemma mapM_Forall2 {A B : Type} (f : A -> result B) (l : list A) :
  forall ys, mapM f l = Ok ys <-> Forall2 (fun x y => f x = Ok y) l ys.
Proof.
  induction l as [|x xs IH]; intros ys; cbn [mapM].
  - split.
    + intros H. apply Ok_inj in H. subst ys. constructor.
    + intros H. inversion H. reflexivity.
  - split.
    + intros H. apply bind_ok_inv in H. destruct H as [y [Hy H]].
      apply bind_ok_inv in H. destruct H as [ys0 [Hys H]].
      apply Ok_inj in H. subst ys. constructor; [exact Hy|now apply IH].
    + intros H. inversion H as [|? y ? ys0 Hy Hys]; subst.
      rewrite Hy. cbn [bind]. apply IH in Hys. now rewrite Hys.
Qed.

Lemma mapM_throws_iff {A B : Type} (f : A -> result B) (l : list A) :
  mapM f l = InvalidNote <-> exists x, In x l /\ f x = InvalidNote.
Proof.
  split.
  - induction l as [|x xs IH]; cbn [mapM]; [discriminate|].
    destruct (f x) as [y|] eqn:E; cbn [bind].
    + destruct (mapM f xs) as [ys|]; cbn [bind]; [discriminate|].
      intros _. destruct (IH eq_refl) as [x' [Hin Hx']].
      exists x'. split; [now right|exact Hx'].
    + intros _. exists x. split; [now left|exact E].
  - intros [x [Hin Hx]]. now apply (mapM_throws f l x).
Qed.

(** [transposeChords] is all or nothing: with a shift other than zero it
    returns a list exactly when every chord transposes, chord by chord in
    the order of the input, and ends in the thrown error as soon as one
    chord of the list does. *)
Theorem transposeChords_all_or_nothing (chords : list string) (n : Z) :
  n <> 0 ->
  (forall out, transposeChords chords n = Ok out <->
               Forall2 (fun c c' => transposeChord c n false = Ok c') chords out) /\
  (transposeChords chords n = InvalidNote <->
   exists c, In c chords /\ transposeChord c n false = InvalidNote).
Proof.
  intros Hn. unfold transposeChords. apply Z.eqb_neq in Hn. rewrite Hn. split.
  - intros out. apply mapM_Forall2.
  - apply mapM_throws_iff.
Qed.

Lemma transposeChords_all_or_nothing_witness :
  transposeChords ["Am"; "Bb"; "C"] 2 = InvalidNote <->
  exists c, In c ["Am"; "Bb"; "C"] /\ transposeChord c 2 false = InvalidNote.
Proof.
  apply (proj2 (transposeChords_all_or_nothing ["Am"; "Bb"; "C"] 2 ltac:(lia))).
Defined.

(** ** Flat spellings on the way out *)

Lemma at_flat_shape (k : Z) :
  0 <= k < 12 ->
  exists a, isNoteLetter a = true /\
            (at_ FLAT_NOTES k = String a "" \/ at_ FLAT_NOTES k = String a "b").
Proof.
  intros H.
  each_index k H;
    (eexists; split; [|first [left; reflexivity|right; reflexivity]]; reflexivity).
Qed.

Lemma transposeChord_parsed_flats (c : string) (n i : Z) (j : option Z) :
  n <> 0 ->
  exactShift n ->
  Js.trim c <> "" ->
  getNoteIndex (root (parseChord c)) = Ok i ->
  pitchClass (bass (parseChord c)) = option_map Ok j ->
  transposeChord c n true =
  Ok (assemble (at_ FLAT_NOTES (shift i n)) (quality (parseChord c))
               (option_map (fun j0 => at_ FLAT_NOTES (shift j0 n)) j)).
Proof.
  intros Hn He Hc Hroot Hbass. unfold transposeChord.
  apply Z.eqb_neq in Hn. apply String.eqb_neq in Hc. rewrite Hn, Hc. cbn [orb].
  destruct (parseChord c) as [r q b]. cbn [root quality bass] in *.
  rewrite (transposeNote_exact r n i true Hroot He). cbn [bind].
  destruct b as [b0|], j as [j0|]; try discriminate Hbass.
  - cbn in Hbass. injection Hbass as Hb0.
    destruct (String.eqb_spec b0 "") as [->|_]; [discriminate Hb0|].
    rewrite (transposeNote_exact b0 n j0 true Hb0 He). cbn [bind option_map].
    destruct (at_flat_shape _ (shift_range j0 n)) as [a [_ [E|E]]];
      rewrite E; reflexivity.
  - cbn [bind option_map]. unfold assemble. cbn [option_map slash].
    now rewrite append_nil_r.
Qed.

Lemma trimEnd_nonspace (a : ascii) (s : string) :
  Js.isSpace a = false -> Js.trimEnd (String a s) = String a (Js.trimEnd s).
Proof. intros H. cbn [Js.trimEnd]. destruct (Js.trimEnd s); now rewrite ?H. Qed.

Lemma hasLineTerminator_trimEnd (s : string) :
  hasLineTerminator s = false -> hasLineTerminator (Js.trimEnd s) = false.
Proof.
  induction s as [|c s IH]; [auto|]. cbn [hasLineTerminator Js.trimEnd].
  intros H. apply orb_false_iff in H. destruct H as [Hc Hs].
  specialize (IH Hs). destruct (Js.trimEnd s) as [|d t].
  - destruct (Js.isSpace c); cbn; now rewrite ?Hc.
  - cbn [hasLineTerminator] in *. now rewrite Hc, IH.
Qed.

Lemma flat_root_is_refused (a : ascii) (rest : string) (m : Z) (useFlats : bool) :
  isNoteLetter a = true ->
  hasLineTerminator rest = false ->
  m <> 0 ->
  transposeChord (String a (String "b" rest)) m useFlats = InvalidNote.
Proof.
  intros Ha Hlt Hm. unfold transposeChord.
  pose proof (note_letter_is_no_space a Ha) as Hsp.
  assert (Js.trim (String a (String "b" rest))
          = String a (String "b" (Js.trimEnd rest))) as Htrim.
  { unfold Js.trim. cbn [Js.trimStart]. rewrite Hsp.
    rewrite trimEnd_nonspace by exact Hsp. now rewrite trimEnd_nonspace. }
  apply Z.eqb_neq in Hm. rewrite Hm, Htrim. cbn [orb String.eqb].
  replace (Ascii.eqb a a && false) with false
    by (now destruct (Ascii.eqb a a)).
  unfold parseChord. rewrite Htrim, matchChord_cons, Ha.
  change (hasLineTerminator (String "b" (Js.trimEnd rest)))
    with (hasLineTerminator (Js.trimEnd rest)).
  rewrite (hasLineTerminator_trimEnd _ Hlt).
  change (isAccidental "b") with true. cbv iota.
  destruct (splitBass (Js.trimEnd rest)) as [q b]. cbn [root].
  unfold transposeNote.
  assert (getNoteIndex (String a "b") = InvalidNote) as ->; [|reflexivity].
  each_char a; try discriminate Ha; reflexivity.
Qed.

(** With flat spelling the result may be a chord [transposeChord] itself
    refuses: when the shifted root falls on pitch class 1, 3, 6, 8 or 10,
    the chord returned has a flat-spelled root, and every further shift
    other than zero ends in the thrown error, in either spelling.  The
    first shift is small enough for its sums with the indices of the note
    table to be exact: at most 2 to the power of 53, less 12, in
    magnitude. *)
Theorem flat_output_is_refused (c : string) (n i m : Z) (useFlats : bool) :
  Js.trim c <> "" ->
  getNoteIndex (root (parseChord c)) = Ok i ->
  (forall b, bass (parseChord c) = Some b -> exists j, getNoteIndex b = Ok j) ->
  n <> 0 -> m <> 0 ->
  exactShift n ->
  In (shift i n) [1; 3; 6; 8; 10] ->
  exists c1,
    transposeChord c n true = Ok c1 /\
    transposeChord c1 m useFlats = InvalidNote.
Proof.
  intros Hc Hroot Hbass Hn Hm He Hblack.
  destruct (known_bass _ Hbass) as [j [Hj [_ Hrange]]].
  destruct (parseChord_quality c) as [Hlt _].
  eexists. split; [now apply (transposeChord_parsed_flats c n i j)|].
  set (q := quality (parseChord c)) in *.
  set (b1 := option_map (fun j0 => at_ FLAT_NOTES (shift j0 n)) j).
  assert (hasLineTerminator (q ++ slash b1) = false) as Hrest.
  { rewrite hasLineTerminator_app, Hlt. unfold b1.
    destruct j as [j0|]; [|reflexivity]. cbn [option_map slash orb].
    destruct (at_flat_shape _ (shift_range j0 n)) as [a [Ha [E|E]]]; rewrite E;
      each_char a; try discriminate Ha; reflexivity. }
  unfold assemble.
  assert (exists a, isNoteLetter a = true /\
                    at_ FLAT_NOTES (shift i n) = String a "b") as [a [Ha E]].
  { repeat (destruct Hblack as [<-|Hblack];
            [eexists; split; [|reflexivity]; reflexivity|]).
    contradiction. }
  rewrite E. change (String a "b" ++ q ++ slash b1)
    with (String a (String "b" (q ++ slash b1))).
  now apply flat_root_is_refused.
Qed.

Lemma flat_output_is_refused_witness :
  exists c1,
    transposeChord "Am7" 1 true = Ok c1 /\
    transposeChord c1 (-1) true = InvalidNote.
Proof.
  apply (flat_output_is_refused "Am7" 1 9 (-1) true).
  - discriminate.
  - reflexivity.
  - intros b H. discriminate H.
  - lia.
  - lia.
  - apply exactShift_small. lia.
  - vm_compute. auto 10.
Defined.

(** ** Parsing loses nothing *)

Lemma noteToken_root (s r q : string) (b : option string) :
  matchChord s = Some (r, q, b) ->
  noteToken r = true /\ (forall b0, b = Some b0 -> noteToken b0 = true).
Proof.
  destruct s as [|c0 rest]; [discriminate|]. rewrite matchChord_cons.
  destruct (isNoteLetter c0) eqn:H0; [|discriminate].
  destruct (hasLineTerminator rest); [discriminate|].
  assert (forall t q' b', splitBass t = (q', b') ->
                          forall b0, b' = Some b0 -> noteToken b0 = true) as Hb.
  { induction t as [|c t IH]; intros q' b' E b0 Hb0; subst b'.
    - discriminate.
    - rewrite splitBass_cons in E.
      destruct (isSlashBass (String c t)) eqn:Es.
      + injection E as _ <-.
        destruct t as [|c1 [|c2 [|c3 t]]]; cbn in Es; try discriminate.
        * now apply andb_true_iff in Es.
        * apply andb_true_iff in Es. destruct Es as [Es E2].
          apply andb_true_iff in Es. destruct Es as [_ E1]. cbn.
          now rewrite E1, E2.
      + destruct (splitBass t) as [q'' b''] eqn:Et. injection E as _ E2.
        subst b''. now apply (IH q'' (Some b0)). }
  destruct rest as [|c1 rest'].
  - intros H. injection H as <- _ <-. split; [exact H0|discriminate].
  - destruct (isAccidental c1) eqn:H1.
    + destruct (splitBass rest') as [q' b'] eqn:E. intros H. injection H as <- _ <-.
      split; [cbn; now rewrite H0, H1|]. now apply (Hb rest' q').
    + destruct (splitBass (String c1 rest')) as [q' b'] eqn:E.
      intros H. injection H as <- _ <-.
      split; [exact H0|]. now apply (Hb (String c1 rest') q').
Qed.

(** [parseChord] loses nothing: either the root, the quality and the bass
    behind its slash spell the trimmed chord again, the root and the bass
    being note tokens, or the chord is returned whole as its own root, with
    no quality and no bass. *)
Theorem parseChord_lossless (c : string) :
  (assemble (root (parseChord c)) (quality (parseChord c)) (bass (parseChord c))
   = Js.trim c /\
   noteToken (root (parseChord c)) = true /\
   (forall b, bass (parseChord c) = Some b -> noteToken b = true)) \/
  parseChord c = mkParsed c "" None.
Proof.
  unfold parseChord.
  destruct (matchChord (Js.trim c)) as [[[r q] b]|] eqn:E; [left|now right].
  cbn [root quality bass].
  destruct (matchChord_spec _ _ _ _ E) as [Hs _].
  destruct (noteToken_root _ _ _ _ E) as [Hr Hb]. auto.
Qed.

(** ** The candidates of key detection *)

Lemma mapM_in {A B : Type} (f : A -> result B) (l : list A) :
  forall ys, mapM f l = Ok ys ->
             forall y, In y ys -> exists x, In x l /\ f x = Ok y.
Proof.
  induction l as [|x xs IH]; intros ys H y Hy; cbn in H.
  - injection H as <-. contradiction.
  - destruct (f x) as [y0|] eqn:E; cbn in H; [|discriminate].
    destruct (mapM f xs) as [ys0|]; cbn in H; [|discriminate].
    injection H as <-. destruct Hy as [<-|Hy].
    + exists x. split; [now left|exact E].
    + destruct (IH ys0 eq_refl y Hy) as [x' [Hin Hx']].
      exists x'. split; [now right|exact Hx'].
Qed.

Lemma existsb_eqb_in (x : string) (l : list string) :
  existsb (String.eqb x) l = true <-> In x l.
Proof.
  rewrite existsb_exists. split.
  - intros [y [Hin E]]. apply String.eqb_eq in E. now subst.
  - intros H. exists x. split; [exact H|apply String.eqb_refl].
Qed.

Lemma dedupe_spec (keys : list string) :
  forall seen,
    NoDup (dedupe seen keys) /\
    (forall x, In x (dedupe seen keys) -> In x keys /\ ~ In x seen).
Proof.
  induction keys as [|k rest IH]; intros seen; cbn [dedupe].
  - split; [constructor|contradiction].
  - destruct (existsb (String.eqb k) seen) eqn:E.
    + destruct (IH seen) as [Hn Hin]. split; [exact Hn|].
      intros x Hx. destruct (Hin x Hx). split; [now right|assumption].
    + destruct (IH (k :: seen)) as [Hn Hin]. split.
      * constructor; [|exact Hn]. intros Hk. destruct (Hin k Hk) as [_ Hk'].
        apply Hk'. now left.
      * intros x [<-|Hx].
        -- split; [now left|]. intros Hs. apply existsb_eqb_in in Hs. congruence.
        -- destruct (Hin x Hx) as [H1 H2]. split; [now right|].
           intros Hs. apply H2. now right.
Qed.

Lemma NoDup_firstn_of {A : Type} (n : nat) (l : list A) :
  NoDup l -> NoDup (firstn n l).
Proof.
  revert n. induction l as [|x xs IH]; intros [|n] H; cbn; try constructor.
  - inversion H as [|? ? Hx Hxs]; subst. intros Hin. apply Hx.
    rewrite <- (firstn_skipn n xs). apply in_or_app. now left.
  - inversion H; subst. now apply IH.
Qed.

Lemma keysAt_in_getAllKeys (i : Z) (k : string) :
  In k (keysAt i) -> In k getAllKeys.
Proof.
  unfold keysAt, getAllKeys. intros H. apply in_app_or in H. apply in_or_app.
  destruct H as [H|H]; [left|right]; apply in_map_iff in H;
    destruct H as [x [<- Hx]]; apply filter_In in Hx; apply in_map; tauto.
Qed.

(** The candidates [detectKey] returns are pairwise different, at most five
    for a list that is not empty, and the detected key is one of the 24 key
    names of [getAllKeys]. *)
Theorem detectKey_candidates (chords : list string) (r : KeyDetectionResult) :
  detectKey chords = Ok r ->
  NoDup (possibleKeys r) /\
  In (detectedKey r) getAllKeys /\
  (chords <> [] -> (List.length (possibleKeys r) <= 5)%nat).
Proof.
  unfold detectKey. destruct chords as [|c cs].
  - intros H. injection H as <-. cbn [possibleKeys detectedKey].
    split; [|split; [cbn; auto|congruence]].
    cbn. repeat (constructor; [cbn; intuition discriminate|]). constructor.
  - set (l := c :: cs).
    destruct (mapM _ _) as [keyLists|] eqn:E; cbn [bind]; [|discriminate].
    intros H. apply Ok_inj in H. subst r. cbn [possibleKeys detectedKey].
    assert (forall k, In k (List.concat keyLists) -> In k getAllKeys) as Hall.
    { intros k Hk. apply in_concat in Hk. destruct Hk as [ks [Hks Hk]].
      destruct (mapM_in _ _ _ E ks Hks) as [x [_ Hx]].
      apply bind_ok_inv in Hx. destruct Hx as [i [_ Hi]].
      apply Ok_inj in Hi. subst ks. now apply (keysAt_in_getAllKeys i). }
    split; [|split].
    + apply NoDup_firstn_of, dedupe_spec.
    + assert (In (match hd_error (List.concat keyLists) with
                  | Some k => if (k =? "")%string then "C" else k
                  | None => "C"
                  end) getAllKeys) as Hguess.
      { destruct (List.concat keyLists) as [|k ks]; cbn [hd_error]; [cbn; auto|].
        destruct (k =? "")%string; [cbn; auto|]. apply Hall. now left. }
      destruct (existsb signalsMinor l && negb (existsb signalsMajor l));
        [|exact Hguess].
      destruct (negb (Js.endsWith "m" _)); [|exact Hguess].
      destruct (find _ MINOR_KEYS) as [mv|] eqn:Ef; [|exact Hguess].
      apply find_some in Ef. destruct Ef as [Hmv _].
      unfold getAllKeys. apply in_or_app. right. now apply in_map.
    + intros _. apply firstn_le_length.
Qed.

Lemma detectKey_candidates_witness :
  NoDup ["C"; "Cm"; "A"; "Am"; "F"] /\
  In "C" getAllKeys /\
  (["C"; "Am"; "F"; "G"; "C"; "Am"; "F"; "G"] <> [] ->
   (List.length ["C"; "Cm"; "A"; "Am"; "F"] <= 5)%nat).
Proof.
  apply (detectKey_candidates ["C"; "Am"; "F"; "G"; "C"; "Am"; "F"; "G"]
           (mkDetection "C" medium ["C"; "Cm"; "A"; "Am"; "F"])).
  reflexivity.
Defined.

(** ** The first candidate of key detection *)

Lemma countIn_increment (r k : string) (l : list (string * Z)) :
  countIn (increment r l) k = countIn l k + (if (r =? k)%string then 1 else 0).
Proof.
  unfold countIn. induction l as [|[k0 n0] l IH]; cbn [increment find fst snd].
  - destruct (r =? k)%string; reflexivity.
  - destruct (String.eqb_spec k0 r) as [->|Hne]; cbn [find fst snd].
    + destruct (r =? k)%string; cbn [snd]; [reflexivity|].
      destruct (find _ l); lia.
    + destruct (String.eqb_spec k0 k) as [->|Hk]; cbn [snd].
      * apply String.eqb_neq in Hne. rewrite String.eqb_sym, Hne. lia.
      * exact IH.
Qed.

Lemma increment_keys_nodup (r : string) (l : list (string * Z)) :
  NoDup (map fst l) -> NoDup (map fst (increment r l)).
Proof.
  induction l as [|[k0 n0] l IH]; cbn [increment map fst]; intros H.
  - repeat constructor. intros [].
  - inversion H as [|? ? Hk Hl]; subst.
    destruct (String.eqb_spec k0 r) as [->|Hne]; cbn [map fst]; [exact H|].
    constructor; [|now apply IH].
    rewrite in_increment. intros [E|Hin]; [congruence|contradiction].
Qed.

Lemma countIn_of_entry (l : list (string * Z)) (k : string) (n : Z) :
  NoDup (map fst l) -> In (k, n) l -> countIn l k = n.
Proof.
  unfold countIn. induction l as [|[k0 n0] l IH]; [contradiction|].
  cbn [map fst find]. intros H Hin. inversion H as [|? ? Hk Hl]; subst.
  destruct Hin as [E|Hin].
  - injection E as -> ->. now rewrite String.eqb_refl.
  - destruct (String.eqb_spec k0 k) as [->|_]; [|now apply IH].
    exfalso. apply Hk. apply in_map_iff. now exists (k, n).
Qed.

Lemma countRoots_counts (chords : list string) :
  (forall c, In c chords -> root (parseChord c) <> "__proto__") ->
  NoDup (map fst (countRoots chords)) /\
  forall k, countIn (countRoots chords) k = Z.of_nat (rootOccurrences chords k).
Proof.
  unfold countRoots, rootOccurrences.
  assert (forall cs acc,
             (forall c, In c cs -> root (parseChord c) <> "__proto__") ->
             NoDup (map fst acc) ->
             NoDup (map fst (fold_left
                               (fun chordCounts chord =>
                                  let parsed := parseChord chord in
                                  if (root parsed =? "__proto__")%string then chordCounts
                                  else increment (root parsed) chordCounts) cs acc)) /\
             forall k,
               countIn (fold_left
                          (fun chordCounts chord =>
                             let parsed := parseChord chord in
                             if (root parsed =? "__proto__")%string then chordCounts
                             else increment (root parsed) chordCounts) cs acc) k
               = countIn acc k
                 + Z.of_nat (count_occ string_dec
                               (map (fun c => root (parseChord c)) cs) k)) as Hgen.
  { induction cs as [|c cs IH]; intros acc Hp Hn; cbn [fold_left map count_occ].
    - split; [exact Hn|]. intros k. lia.
    - assert ((root (parseChord c) =? "__proto__")%string = false) as E.
      { apply String.eqb_neq, Hp. now left. }
      cbv zeta. rewrite E.
      destruct (IH (increment (root (parseChord c)) acc)) as [H1 H2].
      + intros c' Hc'. apply Hp. now right.
      + now apply increment_keys_nodup.
      + split; [exact H1|]. intros k. rewrite H2, countIn_increment.
        destruct (string_dec (root (parseChord c)) k) as [->|Hne].
        * rewrite String.eqb_refl. lia.
        * apply String.eqb_neq in Hne. rewrite Hne. lia. }
  intros Hp. destruct (Hgen chords [] Hp) as [H1 H2]; [constructor|].
  split; [exact H1|]. intros k. rewrite H2. reflexivity.
Qed.

Lemma insertByCount_sorted (x : string * Z) (l : list (string * Z)) :
  Sorted fewer l -> Sorted fewer (insertByCount x l).
Proof.
  induction l as [|y ys IH]; intros H; cbn [insertByCount].
  - repeat constructor.
  - destruct (Z.ltb_spec (snd x) (snd y)) as [Hlt|Hge].
    + inversion H as [|? ? Hs Hhd]; subst. constructor; [now apply IH|].
      destruct ys as [|z zs]; cbn [insertByCount].
      * constructor. unfold fewer. lia.
      * destruct (Z.ltb_spec (snd x) (snd z)).
        -- constructor. now inversion Hhd.
        -- constructor. unfold fewer. lia.
    + constructor; [exact H|]. constructor. unfold fewer. lia.
Qed.

Lemma sortByCount_head (l : list (string * Z)) (y : string * Z) :
  In y l ->
  exists h t, sortByCount l = h :: t /\ snd y <= snd h.
Proof.
  intros Hy.
  assert (Sorted fewer (sortByCount l)) as Hs.
  { clear Hy. induction l as [|x xs IH]; cbn; [constructor|].
    now apply insertByCount_sorted. }
  apply Sorted_StronglySorted in Hs; [|intros a b c; unfold fewer; lia].
  apply in_sortByCount in Hy.
  destruct (sortByCount l) as [|h t]; [contradiction|].
  exists h, t. split; [reflexivity|].
  destruct Hy as [<-|Hy]; [lia|].
  inversion Hs as [|? ? _ Hall]; subst.
  rewrite Forall_forall in Hall. now apply Hall.
Qed.

Lemma keysAt_head (i : Z) :
  0 <= i < 12 ->
  exists k rest, In k MAJOR_KEYS /\ index k = i /\ keysAt i = name k :: rest.
Proof.
  intros H. each_index i H;
    (eexists; eexists; split; [|split; [|reflexivity]];
     [cbn; auto 15|reflexivity]).
Qed.

(** The first candidate is the major key on a most frequent root: when no
    root is the text [__proto__] and [detectKey] returns on a list that is
    not empty, some chord of the list has a root that no other root
    outnumbers, and the first of the candidates is the name of the major
    key whose pitch class is the one of that root. *)
Theorem detectKey_first_candidate (chords : list string) (r : KeyDetectionResult) :
  chords <> [] ->
  (forall c, In c chords -> root (parseChord c) <> "__proto__") ->
  detectKey chords = Ok r ->
  exists c0 k,
    In c0 chords /\
    (forall c, In c chords ->
               (rootOccurrences chords (root (parseChord c))
                <= rootOccurrences chords (root (parseChord c0)))%nat) /\
    In k MAJOR_KEYS /\
    getNoteIndex (root (parseChord c0)) = Ok (index k) /\
    hd_error (possibleKeys r) = Some (name k).
Proof.
  intros Hne Hp. unfold detectKey.
  destruct chords as [|c cs]; [congruence|]. set (l := c :: cs) in *.
  destruct (countRoots_counts l Hp) as [Hnodup Hcount].
  assert (exists n, In (root (parseChord c), n) (countRoots l)) as [n Hn].
  { assert (In (root (parseChord c)) (map fst (countRoots l))) as H.
    { apply in_countRoots. exists c. split; [now left|]. split; [reflexivity|].
      apply Hp. now left. }
    apply in_map_iff in H. destruct H as [[k' n'] [E Hin]]. cbn in E. subst k'.
    now exists n'. }
  destruct (sortByCount_head _ _ Hn) as [[r0 n0] [t [Hsort _]]].
  rewrite Hsort. cbn [map fst mapM].
  destruct (getNoteIndex r0) as [i0|] eqn:Ei; cbn [bind]; [|discriminate].
  destruct (mapM _ (map fst t)) as [kl|]; cbn [bind]; [|discriminate].
  intros H. apply Ok_inj in H. subst r. cbn [possibleKeys].
  assert (In (r0, n0) (countRoots l)) as Hr0.
  { apply in_sortByCount. rewrite Hsort. now left. }
  assert (In r0 (map fst (countRoots l))) as Hkey.
  { apply in_map_iff. now exists (r0, n0). }
  apply in_countRoots in Hkey. destruct Hkey as [c0 [Hc0 [Hroot _]]].
  destruct (keysAt_head i0 (getNoteIndex_range _ _ Ei)) as [k [rest [Hk [Hi Hkeys]]]].
  exists c0, k. split; [exact Hc0|]. split; [|split; [exact Hk|split]].
  - intros c' Hc'.
    assert (exists n', In (root (parseChord c'), n') (countRoots l)) as [n' Hn'].
    { assert (In (root (parseChord c')) (map fst (countRoots l))) as H.
      { apply in_countRoots. exists c'. split; [exact Hc'|]. split; [reflexivity|].
        now apply Hp. }
      apply in_map_iff in H. destruct H as [[k' m'] [E Hin]]. cbn in E. subst k'.
      now exists m'. }
    destruct (sortByCount_head _ _ Hn') as [h [t' [Hsort' Hle]]].
    rewrite Hsort in Hsort'. injection Hsort' as <- _. cbn [snd] in Hle.
    rewrite <- (countIn_of_entry _ _ _ Hnodup Hn') in Hle.
    rewrite <- (countIn_of_entry _ _ _ Hnodup Hr0) in Hle.
    rewrite !Hcount, <- Hroot in Hle. lia.
  - now rewrite Hroot, Ei, Hi.
  - rewrite Hkeys. reflexivity.
Qed.

Lemma detectKey_first_candidate_witness :
  exists c0 k,
    In c0 ["Dm"; "G"; "Dm"] /\
    (forall c, In c ["Dm"; "G"; "Dm"] ->
               (rootOccurrences ["Dm"; "G"; "Dm"] (root (parseChord c))
                <= rootOccurrences ["Dm"; "G"; "Dm"] (root (parseChord c0)))%nat) /\
    In k MAJOR_KEYS /\
    getNoteIndex (root (parseChord c0)) = Ok (index k) /\
    hd_error (possibleKeys (mkDetection "D" low ["D"; "Dm"; "G"; "Gm"]))
    = Some (name k).
Proof.
  apply (detectKey_first_candidate ["Dm"; "G"; "Dm"]
           (mkDetection "D" low ["D"; "Dm"; "G"; "Gm"])).
  - discriminate.
  - intros c H. repeat (destruct H as [<-|H]; [discriminate|]). contradiction.
  - reflexivity.
Defined.

(** ** Easy mode *)

Lemma insertByDistance_perm (x : Suggestion) (l : list Suggestion) :
  Permutation (insertByDistance x l) (x :: l).
Proof.
  induction l as [|y ys IH]; cbn; [reflexivity|].
  destruct (Z.abs (distance x) <=? Z.abs (distance y)); [reflexivity|].
  rewrite IH. apply perm_swap.
Qed.

Lemma sortByDistance_perm (l : list Suggestion) : Permutation (sortByDistance l) l.
Proof.
  induction l as [|x xs IH]; cbn; [reflexivity|].
  rewrite insertByDistance_perm. now constructor.
Qed.

Lemma insertByDistance_sorted (x : Suggestion) (l : list Suggestion) :
  Sorted closer l -> Sorted closer (insertByDistance x l).
Proof.
  induction l as [|y ys IH]; intros H; cbn.
  - repeat constructor.
  - destruct (Z.leb_spec (Z.abs (distance x)) (Z.abs (distance y))) as [Hle|Hlt].
    + constructor; [exact H|]. constructor. exact Hle.
    + inversion H as [|? ? Hs Hhd]; subst. constructor; [now apply IH|].
      destruct ys as [|z zs]; cbn.
      * constructor. unfold closer. lia.
      * destruct (Z.leb_spec (Z.abs (distance x)) (Z.abs (distance z))).
        -- constructor. unfold closer. lia.
        -- constructor. now inversion Hhd.
Qed.

Lemma sortByDistance_sorted (l : list Suggestion) : Sorted closer (sortByDistance l).
Proof.
  induction l as [|x xs IH]; cbn; [constructor|].
  now apply insertByDistance_sorted.
Qed.

Lemma closer_transitive : Relations_1.Transitive closer.
Proof. intros a b c. unfold closer. lia. Qed.

Lemma mapM_keys (f : string -> result Z) (l : list string) :
  forall ys,
    mapM (fun key => distance <- f key ;; Ok (mkSuggestion key distance)) l = Ok ys ->
    map key ys = l.
Proof.
  induction l as [|x xs IH]; intros ys H; cbn in H.
  - now injection H as <-.
  - destruct (f x) as [d|]; cbn in H; [|discriminate].
    destruct (mapM _ xs) as [ys0|]; cbn in H; [|discriminate].
    injection H as <-. cbn. f_equal. now apply IH.
Qed.

(** [suggestEasyModeKeys] throws exactly when the root of the current key is
    no known note.  Otherwise it returns the eight beginner keys, each once,
    each with its distance from the current key, which lies between -6 and
    6, the nearer keys first. *)
Theorem suggestEasyModeKeys_spec (currentKey : string) :
  (suggestEasyModeKeys currentKey = InvalidNote <->
   getNoteIndex (Js.removeFirst "m" currentKey) = InvalidNote) /\
  (forall l, suggestEasyModeKeys currentKey = Ok l ->
             Permutation (map key l) BEGINNER_KEYS /\
             StronglySorted closer l /\
             (forall s, In s l ->
                        getSemitoneDistance currentKey (key s) = Ok (distance s) /\
                        -6 <= distance s <= 6)).
Proof.
  split.
  - unfold suggestEasyModeKeys, transposeKey, getSemitoneDistance.
    destruct (getNoteIndex (Js.removeFirst "m" currentKey)) as [i|] eqn:E.
    + cbn. split; discriminate.
    + cbn. split; reflexivity.
  - unfold suggestEasyModeKeys. intros l H.
    destruct (mapM _ BEGINNER_KEYS) as [entries|] eqn:E; cbn [bind] in H;
      [|discriminate].
    injection H as <-. split; [|split].
    + rewrite (Permutation_map key (sortByDistance_perm entries)).
      now rewrite (mapM_keys _ _ _ E).
    + apply Sorted_StronglySorted; [exact closer_transitive|].
      apply sortByDistance_sorted.
    + intros s Hs.
      apply (Permutation_in _ (sortByDistance_perm entries)) in Hs.
      destruct (mapM_in _ _ _ E s Hs) as [k [_ Hk]].
      unfold transposeKey in Hk.
      destruct (getSemitoneDistance currentKey k) as [d|] eqn:Ed; cbn in Hk;
        [|discriminate].
      injection Hk as <-. cbn [key distance]. split; [exact Ed|].
      now destruct (getSemitoneDistance_antisym _ _ _ Ed).
Qed.

Lemma suggestEasyModeKeys_spec_witness :
  Permutation ["C"; "D"; "Dm"; "A"; "Am"; "E"; "Em"; "G"] BEGINNER_KEYS.
Proof.
  refine (proj1 (proj2 (suggestEasyModeKeys_spec "C")
                   [ mkSuggestion "C" 0; mkSuggestion "D" 2; mkSuggestion "Dm" 2;
                     mkSuggestion "A" (-3); mkSuggestion "Am" (-3);
                     mkSuggestion "E" 4; mkSuggestion "Em" 4;
                     mkSuggestion "G" (-5) ] _)).
  reflexivity.
Defined.

(** ** Beginner-friendly chords *)

Lemma lower_preimage (c : ascii) :
  c = Js.toLowerChar c \/ c = Js.toUpperChar (Js.toLowerChar c).
Proof. each_char c; vm_compute; auto. Qed.

Lemma accidental_cases (x : ascii) :
  isAccidental x = true -> x = "#"%char \/ x = "b"%char.
Proof.
  unfold isAccidental. intros H. apply orb_true_iff in H.
  destruct H as [H|H]; apply Ascii.eqb_eq in H; auto.
Qed.

(** Reads a chord off the equation between a literal and its lower-case
    form: one case per spelling in capitals and small letters. *)
Ltac spell_out H :=
  repeat match type of H with
         | String ?a ?s = Js.toLowerCase ?chord =>
             let c := fresh "c" in
             let Hc := fresh "Hc" in
             let E := fresh "E" in
             destruct chord as [|c chord]; [discriminate H|];
             cbn [Js.toLowerCase] in H; injection H as Hc H;
             destruct (lower_preimage c) as [E|E]; rewrite <- Hc in E; subst c
         | EmptyString = Js.toLowerCase ?chord =>
             destruct chord; [clear H|discriminate H]
         end.

(** For a chord whose parsed root is a note token, [isBeginnerFriendly]
    looks at the root alone: it holds exactly when the root is C, G, D, A
    or E, whatever the quality and the bass. *)
Theorem isBeginnerFriendly_by_root (chord : string) :
  noteToken (root (parseChord chord)) = true ->
  (isBeginnerFriendly chord = true <->
   In (root (parseChord chord)) ["C"; "G"; "D"; "A"; "E"]).
Proof.
  intros Htoken. unfold isBeginnerFriendly. split.
  - intros H. apply existsb_exists in H. destruct H as [e [He H]].
    apply orb_true_iff in H. destruct H as [H|H]; apply String.eqb_eq in H.
    + repeat (destruct He as [<-|He];
              [cbn in H; spell_out H; vm_compute in Htoken |- *;
               first [discriminate Htoken | auto 6]|]).
      contradiction.
    + destruct (root (parseChord chord)) as [|a [|x [|y r]]];
        try discriminate Htoken.
      * cbn in Htoken.
        repeat (destruct He as [<-|He];
                [cbn in H; try discriminate H; injection H as H;
                 each_char a; try discriminate Htoken; try discriminate H;
                 cbn; auto 6|]).
        contradiction.
      * cbn in Htoken. apply andb_true_iff in Htoken.
        destruct Htoken as [_ Hx].
        destruct (accidental_cases x Hx) as [-> | ->];
          repeat (destruct He as [<-|He]; [cbn in H; discriminate H|]);
          contradiction.
  - intros H. apply existsb_exists. exists (root (parseChord chord)). split.
    + repeat (destruct H as [<-|H]; [cbn; auto 20|]). contradiction.
    + now rewrite String.eqb_refl, orb_true_r.
Qed.

Lemma isBeginnerFriendly_by_root_witness :
  isBeginnerFriendly "Edim7/Bb" = true <-> In "E" ["C"; "G"; "D"; "A"; "E"].
Proof. apply (isBeginnerFriendly_by_root "Edim7/Bb"). reflexivity. Defined.

(** ** Relative keys *)

(** For every major key of the table, the relative minor is the sharp
    spelling of the pitch class nine semitones up with an m behind it, and
    its relative major is the sharp spelling of the key's own pitch class:
    the key itself unless it is spelled with a flat. *)
Theorem relative_major_of_relative_minor (k : KeySignature) :
  In k MAJOR_KEYS ->
  getRelativeMinor (name k) = at_ NOTES (Z.rem (index k + 9) 12) ++ "m" /\
  getRelativeMajor (getRelativeMinor (name k)) = at_ NOTES (index k) /\
  (getRelativeMajor (getRelativeMinor (name k)) = name k <->
   ~ In (name k) ["Db"; "Ab"; "Eb"; "Bb"]).
Proof.
  intros H.
  repeat (destruct H as [<-|H];
          [vm_compute; repeat split; try reflexivity; try discriminate;
           intuition discriminate|]).
  contradiction.
Qed.

Lemma relative_major_of_relative_minor_witness :
  getRelativeMinor "Db" = "A#m" /\
  getRelativeMajor (getRelativeMinor "Db") = "C#" /\
  (getRelativeMajor (getRelativeMinor "Db") = "Db" <->
   ~ In "Db" ["Db"; "Ab"; "Eb"; "Bb"]).
Proof.
  apply (relative_major_of_relative_minor (mkKey "Db" 1 5 0)).
  cbn. auto 10.
Defined.

(** ** Chord families *)

(** [getChordFamily] answers minor only for a chord that reads m or that
    holds the letters min; a minor triad written as a root followed by m is
    reported major, for each of the 21 roots. *)
Theorem getChordFamily_minor_needs_min :
  (forall c, getChordFamily c = minor ->
             Js.toLowerCase c = "m" \/ Js.includes "min" (Js.toLowerCase c) = true) /\
  (forall r, In r allRoots -> getChordFamily (r ++ "m") = major).
Proof.
  split.
  - intros c. unfold getChordFamily.
    repeat match goal with
           | |- (if ?b then _ else _) = _ -> _ =>
               let E := fresh "E" in destruct b eqn:E; try discriminate
           end.
    intros _.
    match goal with
    | E : _ || _ = true |- _ => apply orb_true_iff in E; destruct E as [E|E]
    end; [left; now apply String.eqb_eq|now right].
  - intros r H. unfold allRoots in H. cbn in H.
    repeat (destruct H as [<-|H]; [reflexivity|]). contradiction.
Qed.

(** ** Flat spellings *)

Lemma notes_absent_from_sharpMap (s : string) :
  In s NOTES -> sharpMap s = Absent.
Proof. intros H. repeat (destruct H as [<-|H]; [reflexivity|]). contradiction. Qed.

Lemma getNoteIndex_normalized (n : string) (i : Z) :
  getNoteIndex n = Ok i ->
  normalizeToSharp n = Some (at_ NOTES i) /\ In (at_ NOTES i) NOTES.
Proof.
  unfold getNoteIndex. destruct (normalizeToSharp n) as [s|]; [|discriminate].
  destruct (in_dec string_dec s NOTES) as [Hin|Hout].
  - repeat (destruct Hin as [<-|Hin];
            [cbn; intros H; apply Ok_inj in H; subst i; cbn; auto 20|]).
    contradiction.
  - apply indexOf_absent in Hout. rewrite Hout. discriminate.
Qed.

(** [normalizeToFlat] never flattens a note [getNoteIndex] accepts: it
    returns the sharp spelling [normalizeToSharp] returns, the entry of
    [NOTES] at the index of the note. *)
Theorem normalizeToFlat_keeps_sharps (n : string) (i : Z) :
  getNoteIndex n = Ok i ->
  normalizeToFlat n = Some (at_ NOTES i) /\
  normalizeToFlat n = normalizeToSharp n.
Proof.
  intros H. destruct (getNoteIndex_normalized n i H) as [Hs Hin].
  unfold normalizeToFlat. rewrite Hs, (notes_absent_from_sharpMap _ Hin). auto.
Qed.

Lemma normalizeToFlat_keeps_sharps_witness :
  normalizeToFlat "c#" = Some (at_ NOTES 1) /\
  normalizeToFlat "c#" = normalizeToSharp "c#".
Proof. apply (normalizeToFlat_keeps_sharps "c#" 1). reflexivity. Defined.

(** ** Lyrics without chords *)

Lemma in_allChars (c : ascii) : In c allChars.
Proof.
  unfold allChars. apply in_map_iff. exists (nat_of_ascii c). split.
  - apply ascii_nat_embedding.
  - apply in_seq. pose proof (nat_ascii_bounded c). lia.
Qed.

Lemma needsBracket_sym (p : ascii -> bool) (c : ascii) :
  needsBracket (Re.Sym p) = true -> p c = true -> c = "["%char.
Proof.
  cbn [needsBracket]. intros H Hp. rewrite forallb_forall in H.
  specialize (H c (in_allChars c)). rewrite Hp in H. now apply Ascii.eqb_eq.
Qed.

Lemma needsBracket_not_nullable (r : Re.regex) :
  needsBracket r = true -> Re.nullable r = false.
Proof.
  induction r as [| |p|r1 IH1 r2 IH2|r1 IH1 r2 IH2|r IH]; cbn; intros H;
    try reflexivity; try discriminate.
  - apply orb_true_iff in H. apply andb_false_iff.
    destruct H; [left; auto|right; auto].
  - apply andb_true_iff in H. destruct H. apply orb_false_iff. auto.
Qed.

Lemma needsBracket_cat (r1 r2 : Re.regex) :
  needsBracket r1 || needsBracket r2 = true -> needsBracket (Re.cat r1 r2) = true.
Proof.
  intros H. destruct r1; destruct r2; cbn [Re.cat]; try reflexivity;
    cbn [needsBracket] in *; rewrite ?orb_false_r in *;
    first [exact H | discriminate H].
Qed.

Lemma needsBracket_alt (r1 r2 : Re.regex) :
  needsBracket r1 = true -> needsBracket r2 = true ->
  needsBracket (Re.alt r1 r2) = true.
Proof.
  intros H1 H2. destruct r1; destruct r2; cbn [Re.alt]; try assumption;
    change (needsBracket (Re.Alt ?a ?b)) with (needsBracket a && needsBracket b);
    now rewrite H1, H2.
Qed.

Lemma needsBracket_deriv (c : ascii) (r : Re.regex) :
  c <> "["%char -> needsBracket r = true -> needsBracket (Re.deriv c r) = true.
Proof.
  intros Hc. induction r as [| |p|r1 IH1 r2 IH2|r1 IH1 r2 IH2|r IH]; intros H;
    cbn [Re.deriv]; try reflexivity; try discriminate H.
  - destruct (p c) eqn:Hp; [|reflexivity].
    exfalso. apply Hc. now apply (needsBracket_sym p).
  - cbn [needsBracket] in H. apply orb_true_iff in H. destruct H as [H|H].
    + rewrite (needsBracket_not_nullable _ H).
      apply needsBracket_cat. now rewrite (IH1 H).
    + assert (needsBracket (Re.cat (Re.deriv c r1) r2) = true) as Hcat.
      { apply needsBracket_cat. now rewrite H, orb_true_r. }
      destruct (Re.nullable r1); [|exact Hcat].
      apply needsBracket_alt; auto.
  - cbn [needsBracket] in H. apply andb_true_iff in H. destruct H.
    apply needsBracket_alt; auto.
Qed.

Lemma needsBracket_fullMatch (s : string) :
  bracketFree s = true ->
  forall r, needsBracket r = true -> Re.fullMatch r s = false.
Proof.
  induction s as [|c s IH]; cbn; intros Hs r Hr.
  - now apply needsBracket_not_nullable.
  - apply andb_true_iff in Hs. destruct Hs as [Hc Hs].
    apply IH; [exact Hs|]. apply needsBracket_deriv; [|exact Hr].
    intros ->. discriminate Hc.
Qed.

Lemma transposeLine_plain (n : Z) (line : string) :
  bracketFree line = true -> transposeLine n line = Ok line.
Proof.
  intros H. unfold transposeLine, Re.testAnchored, Re.test.
  rewrite (needsBracket_fullMatch line H aboveFormat) by reflexivity.
  rewrite (needsBracket_fullMatch line H) by reflexivity.
  reflexivity.
Qed.

Lemma splitLines_not_nil (s : string) : Js.splitLines s <> [].
Proof.
  induction s as [|c s IH]; cbn; [discriminate|].
  destruct (Js.code c =? 10)%N; [discriminate|].
  destruct (Js.splitLines s); [contradiction|discriminate].
Qed.

Lemma concat_head (sep : string) (c : ascii) (l : string) (ls : list string) :
  String.concat sep (String c l :: ls) = String c (String.concat sep (l :: ls)).
Proof. destruct ls; reflexivity. Qed.

Lemma concat_empty_head (sep l : string) (ls : list string) :
  String.concat sep ("" :: l :: ls) = sep ++ String.concat sep (l :: ls).
Proof. reflexivity. Qed.

Lemma joinLines_splitLines (s : string) : Js.joinLines (Js.splitLines s) = s.
Proof.
  unfold Js.joinLines. induction s as [|c s IH]; [reflexivity|].
  cbn [Js.splitLines]. pose proof (splitLines_not_nil s) as Hne.
  destruct (N.eqb_spec (Js.code c) 10) as [E|_].
  - destruct (Js.splitLines s) as [|l ls]; [contradiction|].
    rewrite concat_empty_head, IH. cbn. f_equal.
    unfold Js.code in E. rewrite <- (ascii_N_embedding c). now rewrite E.
  - destruct (Js.splitLines s) as [|l ls]; [contradiction|].
    now rewrite concat_head, IH.
Qed.

Lemma splitLines_bracketFree (s : string) :
  bracketFree s = true ->
  forall line, In line (Js.splitLines s) -> bracketFree line = true.
Proof.
  induction s as [|c s IH]; cbn [bracketFree Js.splitLines]; intros H line Hin.
  - destruct Hin as [<-|[]]. reflexivity.
  - apply andb_true_iff in H. destruct H as [Hc Hs].
    destruct (Js.code c =? 10)%N.
    + destruct Hin as [<-|Hin]; [reflexivity|now apply IH].
    + destruct (Js.splitLines s) as [|l ls]; [destruct Hin as [<-|[]]|].
      * cbn. now rewrite Hc.
      * destruct Hin as [<-|Hin].
        -- cbn. rewrite Hc. apply IH; [exact Hs|now left].
        -- apply IH; [exact Hs|now right].
Qed.

Lemma mapM_unchanged {A : Type} (f : A -> result A) (l : list A) :
  (forall x, In x l -> f x = Ok x) -> mapM f l = Ok l.
Proof.
  induction l as [|x xs IH]; intros H; cbn; [reflexivity|].
  rewrite (H x) by now left. cbn. rewrite IH; [reflexivity|].
  intros y Hy. apply H. now right.
Qed.

(** Lyrics without an opening bracket come back as they are, for every
    shift, and never end in the thrown error. *)
Theorem transposeLyrics_plain_text (lyrics : string) (n : Z) :
  bracketFree lyrics = true -> transposeLyrics lyrics n = Ok lyrics.
Proof.
  intros H. unfold transposeLyrics. destruct (n =? 0); [reflexivity|].
  rewrite mapM_unchanged.
  - cbn [bind]. now rewrite joinLines_splitLines.
  - intros line Hin. apply transposeLine_plain.
    now apply (splitLines_bracketFree lyrics).
Qed.

Lemma transposeLyrics_plain_text_witness :
  transposeLyrics "Am I dreaming? C you later, Dm7 ]" 5
  = Ok "Am I dreaming? C you later, Dm7 ]".
Proof. apply transposeLyrics_plain_text. reflexivity. Defined.

End TransposeRestFacts.

(** * Properties of the transpose hook *)

Module UseTransposeFacts.

Import Transpose UseTranspose TransposeFacts.

Lemma step_keeps_range (originalKey : option string) (st : State) (e : Event) :
  -12 <= semitones st <= 12 -> -12 <= semitones (step originalKey st e) <= 12.
Proof.
  intros H. destruct e as [| |k|]; cbn [step].
  - unfold incrementSemitones, Js.add. cbn [semitones].
    rewrite toDouble_exact by (rewrite maxExact_value; lia). lia.
  - unfold decrementSemitones, Js.add. cbn [semitones].
    rewrite toDouble_exact by (rewrite maxExact_value; lia). lia.
  - unfold setTargetKey. destruct originalKey as [o|]; [|exact H].
    destruct (negb (o =? "")%string); [|exact H].
    unfold transposeKey.
    destruct (getSemitoneDistance o k) as [d|] eqn:E; cbn; [|exact H].
    destruct (getSemitoneDistance_antisym _ _ _ E). lia.
  - cbn. lia.
Qed.

(** Whatever the user does to the control (one semitone up or down, a key
    from the list, reset), in any order and with or without an original
    key, the shift the hook holds stays between -12 and 12. *)
Theorem semitones_stay_in_range (originalKey : option string) (events : list Event) :
  -12 <= semitones (run originalKey events) <= 12.
Proof.
  unfold run.
  assert (-12 <= semitones initial <= 12) as H by (cbn; lia).
  revert H. generalize initial. induction events as [|e es IH]; intros st H.
  - exact H.
  - cbn [fold_left]. apply IH. now apply step_keeps_range.
Qed.

End UseTransposeFacts.

(** * Further properties of the validation pipeline *)

Module ValidationMoreFacts.

Import Validation Predicates MorePredicates TransposeFacts ValidationFacts.

(** ** Sections *)

Lemma truthy_not_empty (s : string) : truthy s = true -> s <> "".
Proof. unfold truthy. intros H ->. discriminate. Qed.

Lemma sectionStep_invariant (st : list SongSection * SongSection) (line : string) :
  Forall (fun sec => Js.trim (content sec) <> "" /\ WellFormedSection sec) (fst st) ->
  WellFormedSection (snd st) ->
  Forall (fun sec => Js.trim (content sec) <> "" /\ WellFormedSection sec)
         (fst (sectionStep st line)) /\
  WellFormedSection (snd (sectionStep st line)).
Proof.
  destruct st as [secs cur]. cbn [fst snd]. intros Hsecs Hcur. unfold sectionStep.
  destruct (find _ sectionPatterns) as [[t r]|] eqn:Ef.
  - cbn [fst snd]. split.
    + destruct (truthy (Js.trim (content cur))) eqn:Et; [|exact Hsecs].
      apply Forall_app. split; [exact Hsecs|]. constructor; [|constructor].
      split; [now apply truthy_not_empty|exact Hcur].
    + apply find_some in Ef. destruct Ef as [Hin _].
      repeat (destruct Hin as [Hin|Hin]; [injection Hin as <- _; reflexivity|]).
      contradiction.
  - destruct (truthy (Js.trim line)); cbn [fst snd]; auto.
Qed.

(** Every section [parseSections] returns has text that is not blank, and
    its chorus flag is set exactly for a chorus: true on a chorus, false on
    the other titled sections, absent on the untitled leading section. *)
Theorem parseSections_sections (lyrics : string) :
  Forall (fun sec => Js.trim (content sec) <> "" /\ WellFormedSection sec)
         (parseSections lyrics).
Proof.
  unfold parseSections.
  assert (forall lines st,
             Forall (fun sec => Js.trim (content sec) <> "" /\ WellFormedSection sec)
                    (fst st) ->
             WellFormedSection (snd st) ->
             Forall (fun sec => Js.trim (content sec) <> "" /\ WellFormedSection sec)
                    (fst (fold_left sectionStep lines st)) /\
             WellFormedSection (snd (fold_left sectionStep lines st))) as Hfold.
  { induction lines as [|line lines IH]; intros st H1 H2; cbn [fold_left]; [auto|].
    destruct (sectionStep_invariant st line H1 H2). now apply IH. }
  destruct (Hfold (Js.splitLines lyrics) ([], mkSection other "" None))
    as [H1 H2]; [constructor|reflexivity|].
  destruct (fold_left sectionStep _ _) as [secs cur]. cbn [fst snd] in *.
  destruct (truthy (Js.trim (content cur))) eqn:Et; [|exact H1].
  apply Forall_app. split; [exact H1|]. constructor; [|constructor].
  split; [now apply truthy_not_empty|exact H2].
Qed.

(** ** Edit distance *)

Lemma fillRow_bounded (c : ascii) (s2 : string) :
  forall diag left above i j0,
    (diag <= Nat.max i j0)%nat ->
    BoundedFrom i (S j0) above ->
    BoundedFrom (S i) (S j0) (fillRow c s2 diag left above).
Proof.
  induction s2 as [|d s2 IH]; intros diag left above i j0 Hd Ha;
    [intros [|k] x H; discriminate|].
  destruct above as [|up above]; [intros [|k] x H; discriminate|].
  cbn [fillRow]. intros [|k] x H; cbn [nth_error] in H.
  - injection H as <-. destruct (Ascii.eqb c d); lia.
  - assert (up <= Nat.max i (S j0))%nat as Hup.
    { specialize (Ha 0%nat up eq_refl). lia. }
    assert (BoundedFrom i (S (S j0)) above) as Ha'.
    { intros k' x' H'. specialize (Ha (S k') x' H'). lia. }
    specialize (IH up _ above i (S j0) Hup Ha' k x H). lia.
Qed.

Lemma nextRow_bounded (c : ascii) (s2 : string) (above : list nat) (i : nat) :
  BoundedFrom i 0 above -> BoundedFrom (S i) 0 (nextRow c s2 above).
Proof.
  intros Ha. destruct above as [|first above]; [intros [|k] x H; discriminate|].
  cbn [nextRow]. intros [|k] x H; cbn [nth_error] in H.
  - injection H as <-. specialize (Ha 0%nat first eq_refl). lia.
  - assert (first <= Nat.max i 0)%nat as Hf.
    { specialize (Ha 0%nat first eq_refl). lia. }
    assert (BoundedFrom i 1 above) as Ha'.
    { intros k' x' H'. specialize (Ha (S k') x' H'). lia. }
    specialize (fillRow_bounded c s2 first _ above i 0%nat Hf Ha' k x H). lia.
Qed.

Lemma fillRow_length (c : ascii) (s2 : string) :
  forall diag left above,
    (List.length (fillRow c s2 diag left above) <= List.length above)%nat.
Proof.
  induction s2 as [|d s2 IH]; intros diag left above; [cbn; lia|].
  destruct above as [|up above]; cbn [fillRow List.length]; [lia|].
  specialize (IH up (Nat.min (Nat.min (up + 1) (left + 1))
                             (diag + (if Ascii.eqb c d then 0 else 1))) above).
  lia.
Qed.

Lemma lastRow_bounded (s2 : string) (s1 : string) :
  forall row i,
    BoundedFrom i 0 row ->
    BoundedFrom (i + String.length s1) 0 (lastRow s1 s2 row) /\
    (List.length (lastRow s1 s2 row) <= List.length row)%nat.
Proof.
  induction s1 as [|c s1 IH]; intros row i H; cbn [lastRow String.length].
  - rewrite Nat.add_0_r. auto.
  - destruct (IH (nextRow c s2 row) (S i) (nextRow_bounded c s2 row i H)) as [H1 H2].
    split.
    + now replace (i + S (String.length s1))%nat with (S i + String.length s1)%nat by lia.
    + assert (List.length (nextRow c s2 row) <= List.length row)%nat; [|lia].
      destruct row as [|first row]; cbn [nextRow List.length]; [lia|].
      pose proof (fillRow_length c s2 first (first + 1)%nat row). lia.
Qed.

Lemma seq_bounded (n : nat) : BoundedFrom 0 0 (seq 0 n).
Proof.
  intros k x H. assert (k < n)%nat as Hk.
  { rewrite <- (length_seq n 0). apply nth_error_Some. congruence. }
  rewrite (nth_error_nth' _ 0%nat) in H by now rewrite length_seq.
  injection H as <-. rewrite seq_nth by exact Hk. lia.
Qed.

Lemma last_nth_error (l : list nat) (d : nat) :
  l <> [] -> nth_error l (List.length l - 1) = Some (last l d).
Proof.
  induction l as [|x xs IH]; [congruence|]. intros _.
  destruct xs as [|y ys]; [reflexivity|].
  specialize (IH ltac:(discriminate)).
  cbn [List.length] in *. replace (S (S (List.length ys)) - 1)%nat
    with (S (S (List.length ys) - 1))%nat by lia.
  cbn [nth_error]. rewrite IH. reflexivity.
Qed.

Lemma levenshtein_bound (s1 s2 : string) :
  (levenshtein s1 s2 <= Nat.max (String.length s1) (String.length s2))%nat.
Proof.
  unfold levenshtein.
  destruct (lastRow_bounded s2 s1 (seq 0 (S (String.length s2))) 0%nat
              (seq_bounded _)) as [Hb Hl].
  rewrite length_seq in Hl.
  destruct (lastRow s1 s2 (seq 0 (S (String.length s2)))) as [|x row] eqn:E;
    [cbn; lia|].
  pose proof (last_nth_error (x :: row) 0%nat ltac:(discriminate)) as Hlast.
  specialize (Hb _ _ Hlast). cbn [List.length] in *. lia.
Qed.

(** ** Rounding to a double *)

Lemma nearestEven_bound (n d p : Z) :
  0 < d -> 0 <= n <= p * d -> 0 <= Js.nearestEven n d <= p.
Proof.
  intros Hd Hn. unfold Js.nearestEven.
  pose proof (Z.div_mod n d ltac:(lia)) as Hdm.
  pose proof (Z.mod_pos_bound n d Hd) as Hr.
  assert (0 <= n / d) as Hq by (apply Z.div_pos; lia).
  assert (n / d <= p) as Hp by (apply Z.div_le_upper_bound; lia).
  destruct (Z.ltb_spec (2 * (n mod d)) d) as [|Hhalf]; [lia|].
  assert (n / d < p) as Hlt by nia.
  destruct (Z.ltb_spec d (2 * (n mod d))); [lia|].
  destruct (Z.even (n / d)); lia.
Qed.

(** Rounding keeps a fraction of the unit interval inside it. *)
Lemma double_unit (x : Q) : (0 <= x <= 1)%Q -> (0 <= Js.double x <= 1)%Q.
Proof.
  destruct x as [n d]. unfold Qle. cbn [Qnum Qden].
  rewrite !Z.mul_1_r, Z.mul_0_l, Z.mul_1_l. intros [H0 H1].
  unfold Js.double. cbn [Qnum Qden]. rewrite (Z.abs_eq n H0).
  destruct (Z.eqb_spec n 0) as [|Hn]; [cbn; lia|].
  set (e0 := Z.log2 n - Z.log2 (Z.pos d)).
  assert (e0 <= 0) as He0.
  { unfold e0. pose proof (Z.log2_le_mono n (Z.pos d) H1). lia. }
  set (e := if n * 2 ^ Z.max 0 (- e0) <? Z.pos d * 2 ^ Z.max 0 e0
            then e0 - 1 else e0).
  assert (e <= 0) as He by (unfold e; destruct (_ <? _); lia).
  rewrite (Z.max_r 0 (52 - e)) by lia.
  rewrite (Z.max_l 0 (- (52 - e))) by lia.
  rewrite Z.pow_0_r, !Z.mul_1_r, (Z.sgn_pos n) by lia.
  assert (0 < 2 ^ (52 - e)) as Hpow by (apply Z.pow_pos_nonneg; lia).
  destruct (nearestEven_bound (n * 2 ^ (52 - e)) (Z.pos d) (2 ^ (52 - e)))
    as [Hm0 Hm1]; [lia|nia|].
  cbn [Qnum Qden]. rewrite Z2Pos.id by exact Hpow. lia.
Qed.

(** ** The similarity of two titles *)

(** The similarity of two titles is a number from 0 to 1. *)
Theorem calculateStringSimilarity_range (str1 str2 : string) :
  (0 <= calculateStringSimilarity str1 str2 <= 1)%Q.
Proof.
  unfold calculateStringSimilarity.
  destruct (str1 =? str2)%string; [split; discriminate|].
  destruct (Nat.eqb_spec (String.length str1) 0) as [|H1]; [split; discriminate|].
  destruct (Nat.eqb_spec (String.length str2) 0) as [|H2]; [split; discriminate|].
  cbn [orb].
  destruct (Js.includes _ _ || Js.includes _ _);
    [apply double_unit; split; discriminate|].
  apply double_unit.
  set (s1 := Js.toLowerCase str1). set (s2 := Js.toLowerCase str2).
  pose proof (levenshtein_bound s1 s2) as Hd.
  set (d := levenshtein s1 s2) in *.
  set (m := Nat.max (String.length s1) (String.length s2)) in *.
  assert (m <> 0)%nat as Hm.
  { assert (String.length s1 = String.length str1) as E.
    { unfold s1. clear. induction str1; cbn; congruence. }
    unfold m. lia. }
  assert (Z.pos (Pos.of_nat m) = Z.of_nat m) as Hp.
  { rewrite <- positive_nat_Z. f_equal. now apply Nat2Pos.id. }
  assert (0 <= Z.of_nat d # Pos.of_nat m <= 1)%Q as Hq.
  { unfold Qle. cbn [Qnum Qden]. rewrite Hp. lia. }
  destruct (double_unit _ Hq) as [Hq0 Hq1].
  split.
  - apply (Qplus_le_r _ _ (Js.double (Z.of_nat d # Pos.of_nat m))).
    rewrite Qplus_0_r. unfold Qminus.
    rewrite (Qplus_comm 1), Qplus_assoc, Qplus_opp_r, Qplus_0_l. exact Hq1.
  - apply (Qplus_le_r _ _ (Js.double (Z.of_nat d # Pos.of_nat m))).
    unfold Qminus.
    rewrite (Qplus_comm 1), Qplus_assoc, Qplus_opp_r, Qplus_0_l.
    rewrite <- (Qplus_0_l 1) at 1. now apply Qplus_le_l.
Qed.

(** ** Verdicts *)

Lemma filter_length_bound {A : Type} (f : A -> bool) (l : list A) :
  (List.length (filter f l) <= List.length l)%nat.
Proof.
  induction l as [|x xs IH]; cbn; [lia|]. destruct (f x); cbn; lia.
Qed.

(** Lyrics are valid exactly when they are not blank and count at least 100
    characters.  [validateLyrics] reports at most one error, critical and on
    the field lyrics, and at most five warnings, all on the field lyrics. *)
Theorem validateLyrics_verdict (l : string) :
  valid (validateLyrics l) = negb (blank l) && (100 <=? String.length l)%nat /\
  (List.length (errors (validateLyrics l)) <= 1)%nat /\
  (forall e, In e (errors (validateLyrics l)) ->
             field e = "lyrics" /\ severity e = critical) /\
  (List.length (warnings (validateLyrics l)) <= 5)%nat /\
  (forall w, In w (warnings (validateLyrics l)) -> wfield w = "lyrics").
Proof.
  unfold validateLyrics. destruct (blank l); cbn [valid errors warnings negb andb].
  - split; [reflexivity|split; [cbn; lia|split; [|split; [cbn; lia|]]]].
    + intros e [<-|[]]. split; reflexivity.
    + intros w [].
  - unfold MIN_LYRICS_LENGTH. rewrite (Nat.leb_antisym (String.length l) 100).
    pose proof (filter_length_bound (fun indicator => indicator l) truncatedIndicators)
      as Hf.
    change (List.length truncatedIndicators) with 4%nat in Hf.
    split; [|split; [|split; [|split]]].
    + now destruct (String.length l <? 100)%nat.
    + destruct (String.length l <? 100)%nat; cbn; lia.
    + intros e He. destruct (String.length l <? 100)%nat; [|contradiction].
      now destruct He as [<-|[]].
    + destruct (List.length (parseSections l) <? MIN_SECTIONS)%nat;
        rewrite ?length_app, length_map; cbn [List.length]; lia.
    + intros w Hw.
      assert (forall w', In w' (map (fun _ : string -> bool =>
                                       mkWarning "lyrics" "Possible truncated lyrics detected")
                                    (filter (fun indicator => indicator l)
                                            truncatedIndicators)) ->
                         wfield w' = "lyrics") as Hmap.
      { intros w' H'. apply in_map_iff in H'. now destruct H' as [_ [<- _]]. }
      destruct (List.length (parseSections l) <? MIN_SECTIONS)%nat; [|now apply Hmap].
      apply in_app_or in Hw. destruct Hw as [Hw|[<-|[]]]; [now apply Hmap|reflexivity].
Qed.

Lemma toLowerChar_idempotent (c : ascii) :
  Js.toLowerChar (Js.toLowerChar c) = Js.toLowerChar c.
Proof. each_char c; reflexivity. Qed.

Lemma toLowerCase_idempotent (s : string) :
  Js.toLowerCase (Js.toLowerCase s) = Js.toLowerCase s.
Proof.
  induction s as [|c s IH]; cbn; [reflexivity|].
  now rewrite toLowerChar_idempotent, IH.
Qed.

Lemma toLowerCase_truthy (s : string) :
  truthy s = true -> Nat.eqb (String.length (Js.toLowerCase s)) 0 = false.
Proof. destruct s; [discriminate|reflexivity]. Qed.

Section WithUrl.

Variable urlProtocol : string -> option string.

(** Metadata are valid exactly when the identifier is not zero and neither
    the title nor the artist is blank: the address and the expected title
    have no part in the verdict.  The expected title changes no error, every
    error that is not critical is the major one on the address, and there
    is at most one warning. *)
Theorem validateMetadata_verdict (m : SongMetadata) (t : option string) :
  valid (validateMetadata urlProtocol m t)
  = negb (id m =? 0) && negb (blank (title m)) && negb (blank (artist m)) /\
  errors (validateMetadata urlProtocol m t)
  = errors (validateMetadata urlProtocol m None) /\
  (forall e, In e (errors (validateMetadata urlProtocol m t)) ->
             severity e = critical \/ (field e = "url" /\ severity e = major)) /\
  (List.length (warnings (validateMetadata urlProtocol m t)) <= 1)%nat.
Proof.
  unfold validateMetadata. cbv zeta. cbn [valid errors warnings].
  split; [|split; [reflexivity|split]].
  - destruct (id m =? 0); destruct (blank (title m)); destruct (blank (artist m));
      destruct (truthy (url m) && negb (isValidUrl urlProtocol (url m)));
      reflexivity.
  - intros e.
    destruct (id m =? 0); destruct (blank (title m)); destruct (blank (artist m));
      destruct (truthy (url m) && negb (isValidUrl urlProtocol (url m)));
      cbn [app In]; intros H;
      repeat (destruct H as [<-|H]; [cbn; auto|]); contradiction.
  - destruct t as [expected|]; [|cbn; lia].
    destruct (truthy expected && truthy (title m)); [|cbn; lia].
    destruct (Qlt_le_dec _ _); cbn; lia.
Qed.

(** A parsed song is valid exactly when its metadata are valid and it has
    at least one section. *)
Theorem validateParsedSong_verdict (song : ParsedSong) :
  valid (validateParsedSong urlProtocol song)
  = valid (validateMetadata urlProtocol (metadata song) None)
    && negb (Nat.eqb (List.length (sections song)) 0).
Proof.
  change (valid (validateMetadata urlProtocol (metadata song) None))
    with (noCritical (errors (validateMetadata urlProtocol (metadata song) None))).
  unfold validateParsedSong. cbv zeta. cbn [valid].
  destruct (Nat.eqb (List.length (sections song)) 0).
  - rewrite noCritical_app. cbn. now rewrite andb_false_r.
  - now rewrite andb_true_r.
Qed.

(** The verdict of [validateSong] is the conjunction of the verdicts of the
    two checks, whatever the retry count: the count decides which findings
    are reported, never whether the song is valid. *)
Theorem validateSong_verdict (m : SongMetadata) (l : string) (o : option Options) :
  valid (validateSong urlProtocol m l o)
  = valid (validateMetadata urlProtocol m (expectedTitleOf o))
    && valid (validateLyrics l).
Proof.
  destruct (validateSong_cases urlProtocol m l o)
    as [[Hm [_ ->]]|[[Hm [Hl [_ ->]]]|[_ ->]]].
  - now rewrite Hm.
  - now rewrite Hm, Hl.
  - cbn [valid]. rewrite noCritical_app. f_equal.
    destruct (validateLyrics l) as [v es ws] eqn:E.
    pose proof (validateLyrics_coherent l) as Hc. rewrite E in Hc.
    unfold Coherent in Hc. cbn [valid errors] in *.
    apply eq_true_iff_eq. rewrite noCritical_iff. now symmetry.
Qed.

(** With an expected title, [validateMetadata] warns about the title only
    when the two differ beyond the case of their letters; when they differ
    and one holds the other, it always warns, with a similarity of 80%. *)
Theorem validateMetadata_title_warning (m : SongMetadata) (expected : string) :
  truthy expected = true ->
  truthy (title m) = true ->
  (Js.toLowerCase (title m) = Js.toLowerCase expected ->
   warnings (validateMetadata urlProtocol m (Some expected)) = []) /\
  (Js.toLowerCase (title m) <> Js.toLowerCase expected ->
   Js.includes (Js.toLowerCase expected) (Js.toLowerCase (title m))
   || Js.includes (Js.toLowerCase (title m)) (Js.toLowerCase expected) = true ->
   warnings (validateMetadata urlProtocol m (Some expected))
   = [mkWarning "title"
        ("Title mismatch: " ++ Js.quote ++ title m ++ Js.quote ++ " vs "
         ++ Js.quote ++ expected ++ Js.quote ++ " (80% similar)")]).
Proof.
  intros He Ht. unfold validateMetadata. cbv zeta. cbn [warnings].
  rewrite He, Ht. cbn [andb app]. unfold calculateStringSimilarity. split.
  - intros E. rewrite E, String.eqb_refl.
    destruct (Qlt_le_dec 1 TITLE_SIMILARITY_THRESHOLD) as [Hlt|_]; [|reflexivity].
    exfalso. revert Hlt. vm_compute. discriminate.
  - intros Hne Hinc. apply String.eqb_neq in Hne. rewrite Hne.
    rewrite (toLowerCase_truthy _ Ht), (toLowerCase_truthy _ He). cbn [orb].
    rewrite !toLowerCase_idempotent, Hinc.
    destruct (Qlt_le_dec (Js.double (8 # 10)) TITLE_SIMILARITY_THRESHOLD) as [_|Hle];
      [reflexivity|].
    exfalso. revert Hle. vm_compute. intros H. now apply H.
Qed.

End WithUrl.

Lemma validateMetadata_title_warning_witness :
  (Js.toLowerCase "Hey Jude" = Js.toLowerCase "hey jude (Remastered)" ->
   warnings (validateMetadata schemeOf
               (mkMetadata 7 "Hey Jude" "The Beatles" None None None None "")
               (Some "hey jude (Remastered)")) = []) /\
  (Js.toLowerCase "Hey Jude" <> Js.toLowerCase "hey jude (Remastered)" ->
   Js.includes (Js.toLowerCase "hey jude (Remastered)") (Js.toLowerCase "Hey Jude")
   || Js.includes (Js.toLowerCase "Hey Jude") (Js.toLowerCase "hey jude (Remastered)")
   = true ->
   warnings (validateMetadata schemeOf
               (mkMetadata 7 "Hey Jude" "The Beatles" None None None None "")
               (Some "hey jude (Remastered)"))
   = [mkWarning "title"
        ("Title mismatch: " ++ Js.quote ++ "Hey Jude" ++ Js.quote ++ " vs "
         ++ Js.quote ++ "hey jude (Remastered)" ++ Js.quote ++ " (80% similar)")]).
Proof.
  apply (validateMetadata_title_warning schemeOf
           (mkMetadata 7 "Hey Jude" "The Beatles" None None None None "")
           "hey jude (Remastered)"); reflexivity.
Defined.

End ValidationMoreFacts.
